(** * riemann-mpi: midpoint Riemann sums, sequential, OpenMP and MPI

    A shallow embedding of the three C programs of the repository

      - [riemann_suma_secuencial.c]  (module [Secuencial]),
      - [openmp_riemann_suma.c]      (module [OpenMP]),
      - [mpi_riemann_suma.c]         (module [Mpi]),

    and the properties of the work partition, of the range sum and of the
    argument validation that their specification states.

    The C [double] is the kernel's binary64 [float]; [long] and [int] are
    integers of [Z] with the 64 and 32 bit wrap-around written out.  The
    numeric code is written once over a class of arithmetics, so that the same
    text can be read with IEEE-754 doubles (what the programs do) and with the
    real numbers (what the specification calls exact arithmetic). *)

From Stdlib Require Import ZArith List Lia Bool Ascii String Floats Reals.
From Stdlib Require Import Uint63.
From Stdlib Require Import Permutation Lra.
Import ListNotations.

Local Open Scope string_scope.
Local Open Scope list_scope.
Local Open Scope Z_scope.

(** ** Machine integers *)

Definition max_long : Z := 9223372036854775807.
Definition min_long : Z := -9223372036854775808.
Definition max_int : Z := 2147483647.
Definition min_int : Z := -2147483648.

(** Two's complement reduction of an integer to [bits] bits. *)
Definition wrap (bits : Z) (z : Z) : Z :=
  (z + 2 ^ (bits - 1)) mod 2 ^ bits - 2 ^ (bits - 1).

Definition wrap64 : Z -> Z := wrap 64.
Definition wrap32 : Z -> Z := wrap 32.

Definition in_long (z : Z) : Prop := min_long <= z <= max_long.
Definition in_int (z : Z) : Prop := min_int <= z <= max_int.

(** [long] arithmetic of C: the operation on integers, reduced to 64 bits;
    the division truncates towards zero. *)
Definition long_add (x y : Z) : Z := wrap64 (x + y).
Definition long_mul (x y : Z) : Z := wrap64 (x * y).
Definition long_div (x y : Z) : Z := wrap64 (Z.quot x y).
Definition int_sub (x y : Z) : Z := wrap32 (x - y).

(** ** Arithmetics

    The operations the numeric code uses on [double]: the constants [0.0] and
    [0.5], the four operations, and the conversion of a [long]. *)

Class Aritmetica (F : Type) : Type := {
  cero : F;
  medio : F;
  suma_f : F -> F -> F;
  resta_f : F -> F -> F;
  mult_f : F -> F -> F;
  div_f : F -> F -> F;
  de_long : Z -> F
}.

Declare Scope arit_scope.
Delimit Scope arit_scope with arit.
Infix "+" := suma_f : arit_scope.
Infix "-" := resta_f : arit_scope.
Infix "*" := mult_f : arit_scope.
Infix "/" := div_f : arit_scope.

(** Conversion of a [long] to [double]: round to nearest, ties to even.  The
    kernel converts unsigned 63 bit integers, which covers every magnitude but
    that of [LONG_MIN], a power of two. *)
Definition double_of_long (z : Z) : float :=
  if z =? min_long then (-9223372036854775808)%float
  else if z <? 0 then PrimFloat.opp (PrimFloat.of_uint63 (Uint63.of_Z (- z)))
  else PrimFloat.of_uint63 (Uint63.of_Z z).

#[export] Instance binary64 : Aritmetica float := {
  cero := 0%float;
  medio := 0.5%float;
  suma_f := PrimFloat.add;
  resta_f := PrimFloat.sub;
  mult_f := PrimFloat.mul;
  div_f := PrimFloat.div;
  de_long := double_of_long
}.

#[export] Instance reales : Aritmetica R := {
  cero := 0%R;
  medio := (/ 2)%R;
  suma_f := Rplus;
  resta_f := Rminus;
  mult_f := Rmult;
  div_f := Rdiv;
  de_long := IZR
}.

(** The laws that make an arithmetic exact enough for the reduction not to
    depend on how the terms are grouped. *)
Class Exacta (F : Type) `{Aritmetica F} : Prop := {
  suma_asociativa : forall x y z : F, (x + (y + z) = (x + y) + z)%arit;
  suma_cero_izq : forall x : F, (cero + x = x)%arit;
  suma_cero_der : forall x : F, (x + cero = x)%arit
}.

(** ** Processes: output, clocks and exit status

    What a run of one of the programs shows to its environment: the lines it
    prints, the clock readings it takes, the call of the numeric routine, and
    the status it ends with. *)

Inductive valor (F : Type) : Type :=
| VDouble (x : F)
| VLong (z : Z)
| VInt (z : Z)
| VCadena (s : string).
Arguments VDouble {F}.
Arguments VLong {F}.
Arguments VInt {F}.
Arguments VCadena {F}.

Inductive evento (F : Type) : Type :=
| Stderr (formato : string) (args : list (valor F))
| Stdout (formato : string) (args : list (valor F))
| Reloj
| Calculo (resultado : F).
Arguments Stderr {F}.
Arguments Stdout {F}.
Arguments Reloj {F}.
Arguments Calculo {F}.

Definition EXIT_SUCCESS : Z := 0.
Definition EXIT_FAILURE : Z := 1.
Definition CLOCKS_PER_SEC : Z := 1000000.

(** What the program takes from libc and from the system: the parsers of its
    arguments and the successive readings of the clocks. *)
Record Entorno (F : Type) : Type := {
  atof : string -> F;
  atol : string -> Z;
  atoi : string -> Z;
  clock : nat -> Z;
  wtime : nat -> F
}.
Arguments atof {F}.
Arguments atol {F}.
Arguments atoi {F}.
Arguments clock {F}.
Arguments wtime {F}.

(** The state of a run: the events so far, latest first, and the number of
    clock readings taken. *)
Record Estado (F : Type) : Type := {
  traza : list (evento F);
  lecturas : nat
}.
Arguments Build_Estado {F}.
Arguments traza {F}.
Arguments lecturas {F}.

Definition inicial {F : Type} : Estado F :=
  {| traza := []; lecturas := O |}.

(** A computation either goes on with a value or ends the process with a
    status ([return] from [main], [MPI_Abort]). *)
Definition Proc (F A : Type) : Type := Estado F -> Estado F * (A + Z).

Definition ret {F A : Type} (x : A) : Proc F A := fun s => (s, inl x).

Definition bind {F A B : Type} (c : Proc F A) (k : A -> Proc F B) : Proc F B :=
  fun s =>
    match c s with
    | (s', inl x) => k x s'
    | (s', inr status) => (s', inr status)
    end.

Definition terminar {F A : Type} (status : Z) : Proc F A :=
  fun s => (s, inr status).

Definition emitir {F : Type} (e : evento F) : Proc F unit :=
  fun s => ({| traza := e :: traza s; lecturas := lecturas s |}, inl tt).

Definition leer_reloj {F A : Type} (fuente : nat -> A) : Proc F A :=
  fun s => ({| traza := Reloj :: traza s; lecturas := S (lecturas s) |},
            inl (fuente (lecturas s))).

Definition cuando {F : Type} (c : bool) (p : Proc F unit) : Proc F unit :=
  if c then p else ret tt.

Declare Scope proc_scope.
Delimit Scope proc_scope with proc.
Notation "x <- c ;; k" := (bind c (fun x => k))
  (at level 61, c at next level, right associativity) : proc_scope.
Notation "c ;; k" := (bind c (fun _ => k))
  (at level 61, right associativity) : proc_scope.

(** The outcome of a whole run: the events in the order they happened, and
    the exit status. *)
Definition ejecutar {F : Type} (p : Proc F Z) : list (evento F) * Z :=
  match p inicial with
  | (s, inl status) => (rev (traza s), status)
  | (s, inr status) => (rev (traza s), status)
  end.

Definition fprintf_stderr {F : Type} (formato : string)
    (args : list (valor F)) : Proc F unit :=
  emitir (Stderr formato args).

Definition printf {F : Type} (formato : string)
    (args : list (valor F)) : Proc F unit :=
  emitir (Stdout formato args).

(** [argv[i]], the empty string when there is none. *)
Definition arg (argv : list string) (i : nat) : string := nth i argv EmptyString.

(** ** riemann_suma_secuencial.c *)

Module Secuencial.
Section Programa.
Context {F : Type} `{Aritmetica F}.

(** [double funcion(double x)]: the integrand, [sin] of libm in the source. *)
Variable funcion : F -> F.

(** The [for (long i = 0; i < n; i++)] loop, [k] iterations from the state
    [(i, suma)]. *)
Fixpoint bucle (a delta_x : F) (k : nat) (i : Z) (suma : F) : F :=
  match k with
  | O => suma
  | S k' =>
      let x := (a + (de_long i + medio) * delta_x)%arit in
      bucle a delta_x k' (long_add i 1) (suma + funcion x * delta_x)%arit
  end.

(** [double calcular_suma_riemann(double a, double b, long n)] *)
Definition calcular_suma_riemann (a b : F) (n : Z) : F :=
  let delta_x := ((b - a) / de_long n)%arit in
  bucle a delta_x (Z.to_nat (n - 0)) 0 cero.

Variable env : Entorno F.

(** [int main(int argc, char *argv[])] of riemann_suma_secuencial.c *)
Definition main (argv : list string) : Proc F Z :=
  (let argc := Z.of_nat (List.length argv) in
   cuando (negb (argc =? 4))
     (fprintf_stderr "Uso: %s <a> <b> <n>\n" [VCadena (arg argv 0)] ;;
      fprintf_stderr "Donde:\n" [] ;;
      fprintf_stderr "    <a> : Límite inferior de integración (double)\n" [] ;;
      fprintf_stderr "    <b> : Límite superior de integración (double)\n" [] ;;
      fprintf_stderr "    <n> : Número de subintervalos (entero positivo)\n" [] ;;
      terminar EXIT_FAILURE) ;;
   let a := atof env (arg argv 1) in
   let b := atof env (arg argv 2) in
   let n := atol env (arg argv 3) in
   cuando (n <=? 0)
     (fprintf_stderr
        "El número de subintervalos debe ser un entero positivo.\n" [] ;;
      terminar EXIT_FAILURE) ;;
   printf "Aproximando la integral de sin(x) desde %.6f hasta %.6f con %ld subintervalos.\n"
     [VDouble a; VDouble b; VLong n] ;;
   inicio <- leer_reloj (clock env) ;;
   let suma_total := calcular_suma_riemann a b n in
   emitir (Calculo suma_total) ;;
   fin <- leer_reloj (clock env) ;;
   let tiempo_ejecucion :=
     (de_long (wrap64 (fin - inicio)) / de_long CLOCKS_PER_SEC)%arit in
   printf "Resultado de la integral aproximada: %.12f\n" [VDouble suma_total] ;;
   printf "Tiempo de ejecución: %.6f segundos.\n" [VDouble tiempo_ejecucion] ;;
   terminar EXIT_SUCCESS)%proc.

End Programa.
End Secuencial.

(** ** openmp_riemann_suma.c *)

Module OpenMP.
Section Programa.
Context {F : Type} `{Aritmetica F}.

Variable funcion : F -> F.

(** The OpenMP runtime's schedule of a [parallel for] of [n] iterations on
    [num_hilos] threads: for each thread of the team, the iterations it
    runs, in the order it runs them.  The order of the list is the order in
    which the reduction combines the threads' private copies. *)
Variable reparto : Z -> Z -> list (list Z).

(** The body of the loop on the thread's private [suma]. *)
Definition iteracion (a delta_x : F) (suma : F) (i : Z) : F :=
  let x := (a + (de_long i + medio) * delta_x)%arit in
  (suma + funcion x * delta_x)%arit.

(** [double calcular_suma_riemann_openmp(double a, double b, long n,
    int num_hilos)]: with [reduction(+:suma)] every thread adds into a
    private copy that starts at [0.0], and the copies are added to the
    original [suma]. *)
Definition calcular_suma_riemann_openmp (a b : F) (n num_hilos : Z) : F :=
  let delta_x := ((b - a) / de_long n)%arit in
  let privadas :=
    map (fun its => fold_left (iteracion a delta_x) its cero)
        (reparto n num_hilos) in
  fold_left suma_f privadas cero.

Variable env : Entorno F.

(** [int main(int argc, char *argv[])] of openmp_riemann_suma.c *)
Definition main (argv : list string) : Proc F Z :=
  (let argc := Z.of_nat (List.length argv) in
   cuando (negb (argc =? 5))
     (fprintf_stderr "Uso: %s <a> <b> <n> <numero_de_hilos>\n"
        [VCadena (arg argv 0)] ;;
      fprintf_stderr "Donde:\n" [] ;;
      fprintf_stderr "    <a> : Límite inferior de integración (double)\n" [] ;;
      fprintf_stderr "    <b> : Límite superior de integración (double)\n" [] ;;
      fprintf_stderr "    <n> : Número de subintervalos (entero positivo)\n" [] ;;
      fprintf_stderr
        "    <numero_de_hilos> : Número de hilos de OpenMP (entero positivo)\n" [] ;;
      terminar EXIT_FAILURE) ;;
   let a := atof env (arg argv 1) in
   let b := atof env (arg argv 2) in
   let n := atol env (arg argv 3) in
   let num_hilos := atoi env (arg argv 4) in
   cuando ((n <=? 0) || (num_hilos <=? 0))
     (fprintf_stderr
        "El número de subintervalos y el número de hilos deben ser enteros positivos.\n"
        [] ;;
      terminar EXIT_FAILURE) ;;
   printf "Aproximando la integral de sin(x) desde %.6f hasta %.6f con %ld subintervalos utilizando %d hilos.\n"
     [VDouble a; VDouble b; VLong n; VInt num_hilos] ;;
   start_time <- leer_reloj (wtime env) ;;
   let suma_total := calcular_suma_riemann_openmp a b n num_hilos in
   emitir (Calculo suma_total) ;;
   end_time <- leer_reloj (wtime env) ;;
   let tiempo_ejecucion := (end_time - start_time)%arit in
   printf "Resultado de la integral aproximada: %.12f\n" [VDouble suma_total] ;;
   printf "Tiempo de ejecución: %.6f segundos.\n" [VDouble tiempo_ejecucion] ;;
   terminar EXIT_SUCCESS)%proc.

End Programa.
End OpenMP.
(** ** mpi_riemann_suma.c *)

Module Mpi.

(** [IntegracionParams] *)
Record IntegracionParams (F : Type) : Type := {
  a : F;
  b : F;
  n : Z
}.
Arguments Build_IntegracionParams {F}.
Arguments a {F}.
Arguments b {F}.
Arguments n {F}.

Section Programa.
Context {F : Type} `{Aritmetica F}.

Variable funcion : F -> F.

(** The [for (long i = inicio; i < fin; i++)] loop, [k] iterations from the
    state [(i, suma)]. *)
Fixpoint bucle (params : IntegracionParams F) (delta_x : F)
    (k : nat) (i : Z) (suma : F) : F :=
  match k with
  | O => suma
  | S k' =>
      let x := (a params + (de_long i + medio) * delta_x)%arit in
      bucle params delta_x k' (long_add i 1)
        (suma + funcion x * delta_x)%arit
  end.

(** [double calcular_suma_riemann(IntegracionParams params, long inicio,
    long fin)] *)
Definition calcular_suma_riemann (params : IntegracionParams F)
    (inicio fin : Z) : F :=
  let delta_x := ((b params - a params) / de_long (n params))%arit in
  bucle params delta_x (Z.to_nat (fin - inicio)) inicio cero.

(** The share of the work of process [rank] among [size] (lines 98-100 of
    [main]): [(inicio, fin)]. *)
Definition porcion (params : IntegracionParams F) (size rank : Z) : Z * Z :=
  let subintervalos_por_proceso := long_div (n params) size in
  let inicio := long_mul rank subintervalos_por_proceso in
  let fin := if rank =? int_sub size 1 then n params
             else long_add inicio subintervalos_por_proceso in
  (inicio, fin).

(** [suma_local] of process [rank]. *)
Definition suma_local (params : IntegracionParams F) (size rank : Z) : F :=
  let '(inicio, fin) := porcion params size rank in
  calcular_suma_riemann params inicio fin.

(** The ranks of a communicator of [size] processes, in order. *)
Definition rangos (size : Z) : list Z :=
  map Z.of_nat (seq 0 (Z.to_nat size)).

(** [MPI_Reduce] with [MPI_SUM]: the contributions added in rank order,
    starting from that of rank 0. *)
Definition MPI_Reduce_SUM (contribuciones : list F) : F :=
  match contribuciones with
  | [] => cero
  | s :: resto => fold_left suma_f resto s
  end.

(** [suma_total] at the root after the reduction. *)
Definition suma_total (params : IntegracionParams F) (size : Z) : F :=
  MPI_Reduce_SUM (map (suma_local params size) (rangos size)).

Variable env : Entorno F.

(** [int main(int argc, char *argv[])] of mpi_riemann_suma.c, for a job of
    [size] processes, as the root sees it: rank 0 reads and checks the
    arguments, [MPI_Abort] ends the whole job, [MPI_Bcast] hands [params] to
    every rank, every rank computes its [suma_local], [MPI_Reduce] adds them
    at the root, which prints. *)
Definition main (size : Z) (argv : list string) : Proc F Z :=
  (let argc := Z.of_nat (List.length argv) in
   cuando (negb (argc =? 4))
     (fprintf_stderr "Uso: %s <a> <b> <n>\n" [VCadena (arg argv 0)] ;;
      fprintf_stderr "Donde:\n" [] ;;
      fprintf_stderr "    <a> : Límite inferior de integración (double)\n" [] ;;
      fprintf_stderr "    <b> : Límite superior de integración (double)\n" [] ;;
      fprintf_stderr "    <n> : Número de subintervalos (entero positivo)\n" [] ;;
      terminar EXIT_FAILURE) ;;
   let params := {| a := atof env (arg argv 1);
                    b := atof env (arg argv 2);
                    n := atol env (arg argv 3) |} in
   cuando (n params <=? 0)
     (fprintf_stderr
        "El número de subintervalos debe ser un entero positivo.\n" [] ;;
      terminar EXIT_FAILURE) ;;
   printf "Aproximando la integral de sin(x) desde %.6f hasta %.6f con %ld subintervalos.\n"
     [VDouble (a params); VDouble (b params); VLong (n params)] ;;
   start_time <- leer_reloj (wtime env) ;;
   let suma_total := suma_total params size in
   emitir (Calculo suma_total) ;;
   end_time <- leer_reloj (wtime env) ;;
   printf "Resultado de la integral aproximada: %.12f\n" [VDouble suma_total] ;;
   printf "Tiempo de ejecución: %.6f segundos.\n"
     [VDouble (end_time - start_time)%arit] ;;
   terminar 0)%proc.

End Programa.
End Mpi.


(** ** The specification's RangeSum

    The range sum as the specification words it: [delta_x] computed once, one
    accumulator that starts at [0.0], and the terms
    [f(a + (i + 0.5) * delta_x) * delta_x] added for [i = start, ..., end - 1]
    in ascending order. *)

Module Especificacion.
Section RangeSum.
Context {F : Type} `{Aritmetica F}.
Variable f : F -> F.

(** The indices [start, start + 1, ..., end - 1]. *)
Definition indices (start end_ : Z) : list Z :=
  map (fun k => start + Z.of_nat k) (seq 0 (Z.to_nat (end_ - start))).

Definition termino (a delta_x : F) (i : Z) : F :=
  (f (a + (de_long i + medio) * delta_x) * delta_x)%arit.

(** The terms of the range, in ascending index order. *)
Definition terminos (a b : F) (n start end_ : Z) : list F :=
  let delta_x := ((b - a) / de_long n)%arit in
  map (termino a delta_x) (indices start end_).

(** Plain left-to-right summation from [0.0]. *)
Definition sumar (ts : list F) : F := fold_left suma_f ts cero.

Definition RangeSum (a b : F) (n start end_ : Z) : F :=
  sumar (terminos a b n start end_).

(** The terms that each of the [size] workers adds, by rank. *)
Definition terminos_por_rango (params : Mpi.IntegracionParams F)
    (size : Z) : list (list F) :=
  map (fun rank =>
         let '(inicio, fin) := Mpi.porcion params size rank in
         terminos (Mpi.a params) (Mpi.b params) (Mpi.n params) inicio fin)
      (Mpi.rangos size).

End RangeSum.
End Especificacion.

(** ** Rejected runs

    What the specification asks of a run on invalid input: a message on
    standard error, a nonzero exit status, and nothing else, so no line on
    standard output, no clock reading and no call of the numeric routine. *)

Definition es_stderr {F : Type} (e : evento F) : Prop :=
  match e with
  | Stderr _ _ => True
  | _ => False
  end.

Definition rechazada {F : Type} (r : list (evento F) * Z) : Prop :=
  snd r <> 0 /\ fst r <> [] /\ Forall es_stderr (fst r).

(** ** An environment to run the programs in

    The parsers as the C library has them ([atol] is [strtol] in base 10:
    white space, an optional sign, then digits, saturating; [atoi] its
    result cut to an [int]), a constant [atof], and clocks that advance by
    one at each reading. *)

Definition es_espacio (c : ascii) : bool :=
  let k := Z.of_N (N_of_ascii c) in
  (k =? 32) || ((9 <=? k) && (k <=? 13)).

Definition digito (c : ascii) : option Z :=
  let k := Z.of_N (N_of_ascii c) in
  if (48 <=? k) && (k <=? 57) then Some (k - 48) else None.

Fixpoint leer_digitos (s : string) (acc : Z) : Z :=
  match s with
  | EmptyString => acc
  | String c resto =>
      match digito c with
      | Some d => leer_digitos resto (10 * acc + d)
      | None => acc
      end
  end.

Fixpoint saltar_espacios (s : string) : string :=
  match s with
  | EmptyString => EmptyString
  | String c resto => if es_espacio c then saltar_espacios resto else s
  end.

Definition saturar (z : Z) : Z := Z.max min_long (Z.min max_long z).

Definition strtol (s : string) : Z :=
  match saltar_espacios s with
  | String "-"%char resto => saturar (- leer_digitos resto 0)
  | String "+"%char resto => saturar (leer_digitos resto 0)
  | resto => saturar (leer_digitos resto 0)
  end.

Definition entorno_de_prueba : Entorno float := {|
  atof := fun _ => 0%float;
  atol := strtol;
  atoi := fun s => wrap32 (strtol s);
  clock := fun k => Z.of_nat k;
  wtime := fun k => double_of_long (Z.of_nat k)
|}.

(** ** Classes of binary64 values

    Read on the specification [spec_float] of a [double]. *)

(** Neither NaN nor an infinity. *)
Definition SFfinito (x : spec_float) : bool :=
  match x with
  | S754_zero _ | S754_finite _ _ _ => true
  | _ => false
  end.

(** A zero, of either sign. *)
Definition SFcero (x : spec_float) : bool :=
  match x with
  | S754_zero _ => true
  | _ => false
  end.

(** Non-negative, finite, and below [2 ^ B]. *)
Definition acotado (B : Z) (x : spec_float) : Prop :=
  match x with
  | S754_zero false => True
  | S754_finite false m e => Zpos (digits2_pos m) + e <= B
  | _ => False
  end.

(** Finite and above zero. *)
Definition positivo (x : spec_float) : Prop :=
  match x with
  | S754_finite false _ _ => True
  | _ => False
  end.

(** * Properties *)

(** ** Machine integers *)

Lemma wrap64_in_long (z : Z) : in_long z -> wrap64 z = z.
Proof.
  unfold in_long, min_long, max_long, wrap64, wrap. intros Hz.
  change (2 ^ (64 - 1)) with 9223372036854775808.
  change (2 ^ 64) with 18446744073709551616.
  rewrite Z.mod_small; lia.
Qed.

Lemma wrap32_in_int (z : Z) : in_int z -> wrap32 z = z.
Proof.
  unfold in_int, min_int, max_int, wrap32, wrap. intros Hz.
  change (2 ^ (32 - 1)) with 2147483648.
  change (2 ^ 32) with 4294967296.
  rewrite Z.mod_small; lia.
Qed.

Lemma long_add_exact (x y : Z) : in_long (x + y) -> long_add x y = x + y.
Proof. apply wrap64_in_long. Qed.

Lemma long_mul_exact (x y : Z) : in_long (x * y) -> long_mul x y = x * y.
Proof. apply wrap64_in_long. Qed.

Lemma long_div_exact (x y : Z) :
  0 <= x <= max_long -> 0 < y -> long_div x y = x / y.
Proof.
  intros Hx Hy. unfold long_div.
  rewrite Z.quot_div_nonneg by lia.
  apply wrap64_in_long. unfold in_long, min_long, max_long in *.
  pose proof (Z.div_pos x y ltac:(lia) Hy).
  pose proof (Z.div_le_upper_bound x y x Hy ltac:(nia)). lia.
Qed.

Lemma int_sub_exact (x y : Z) : in_int (x - y) -> int_sub x y = x - y.
Proof. apply wrap32_in_int. Qed.

(** ** The partition of the work (mpi_riemann_suma.c, lines 98-100) *)

Section Particion.
Context {F : Type}.
Variable params : Mpi.IntegracionParams F.
Variable size : Z.
Hypothesis n_positivo : 0 < Mpi.n params <= max_long.
Hypothesis size_positivo : 1 <= size <= max_int.

Local Abbreviation base := (Mpi.n params / size).

Lemma base_acotada : 0 <= base /\ size * base <= Mpi.n params.
Proof.
  split.
  - apply Z.div_pos; lia.
  - apply Z.mul_div_le; lia.
Qed.

(** The share of a rank, without the machine arithmetic. *)
Lemma porcion_eq (rank : Z) :
  0 <= rank < size ->
  Mpi.porcion params size rank =
    (rank * base, if rank =? size - 1 then Mpi.n params else rank * base + base).
Proof.
  intros Hr. pose proof base_acotada as [Hb0 Hb].
  unfold Mpi.porcion.
  rewrite long_div_exact by lia.
  assert (Hrb : 0 <= rank * base <= Mpi.n params - base) by nia.
  rewrite long_mul_exact by (unfold in_long, min_long, max_long in *; lia).
  rewrite int_sub_exact by (unfold in_int, min_int, max_int in *; lia).
  destruct (rank =? size - 1); [reflexivity|].
  rewrite long_add_exact by (unfold in_long, min_long, max_long in *; lia).
  reflexivity.
Qed.

(** Every share lies inside [[0, n]]. *)
Lemma porcion_dentro (rank : Z) :
  0 <= rank < size ->
  0 <= fst (Mpi.porcion params size rank) <= snd (Mpi.porcion params size rank) /\
  snd (Mpi.porcion params size rank) <= Mpi.n params.
Proof.
  intros Hr. pose proof base_acotada as [Hb0 Hb].
  rewrite porcion_eq by assumption. cbn [fst snd].
  destruct (Z.eqb_spec rank (size - 1)); nia.
Qed.

End Particion.

(** C2. For [n > 0] and [w >= 1] the [w] ranges of the partition form a
    partition of [[0, n)]: every range lies inside [[0, n]], every index of
    [[0, n)] lies in the range of some rank (no gap), and in the range of one
    rank only (no overlap). *)
Theorem particion_completa {F : Type} (params : Mpi.IntegracionParams F) (size : Z) :
  0 < Mpi.n params <= max_long ->
  1 <= size <= max_int ->
  (forall rank, 0 <= rank < size ->
     0 <= fst (Mpi.porcion params size rank)
       <= snd (Mpi.porcion params size rank) /\
     snd (Mpi.porcion params size rank) <= Mpi.n params) /\
  (forall i, 0 <= i < Mpi.n params ->
     exists rank, 0 <= rank < size /\
       fst (Mpi.porcion params size rank) <= i < snd (Mpi.porcion params size rank)) /\
  (forall i r1 r2, 0 <= r1 < size -> 0 <= r2 < size ->
     fst (Mpi.porcion params size r1) <= i < snd (Mpi.porcion params size r1) ->
     fst (Mpi.porcion params size r2) <= i < snd (Mpi.porcion params size r2) ->
     r1 = r2).
Proof.
  intros Hn Hs.
  pose proof (base_acotada params size Hn Hs) as [Hb0 Hb].
  set (base := Mpi.n params / size) in *.
  split; [|split].
  - intros rank Hr. apply porcion_dentro; assumption.
  - intros i Hi.
    destruct (Z_lt_le_dec i ((size - 1) * base)) as [Hlt | Hge].
    + (* one of the ranks before the last *)
      assert (Hbpos : 0 < base) by nia.
      exists (i / base).
      pose proof (Z.div_pos i base ltac:(lia) Hbpos).
      pose proof (Z.div_lt_upper_bound i base (size - 1) Hbpos ltac:(nia)).
      pose proof (Z.mul_div_le i base Hbpos).
      pose proof (Z.mul_succ_div_gt i base Hbpos).
      split; [lia|].
      rewrite porcion_eq by (assumption || lia). fold base. simpl.
      destruct (Z.eqb_spec (i / base) (size - 1)); nia.
    + exists (size - 1). split; [lia|].
      rewrite porcion_eq by (assumption || lia). fold base. simpl.
      rewrite Z.eqb_refl. lia.
  - intros i r1 r2 Hr1 Hr2.
    rewrite !porcion_eq by assumption. fold base. simpl.
    destruct (Z.eqb_spec r1 (size - 1)), (Z.eqb_spec r2 (size - 1)); nia.
Qed.

Lemma particion_completa_testigo :
  let params := {| Mpi.a := 0%float; Mpi.b := 1%float; Mpi.n := 10 |} in
  (forall rank, 0 <= rank < 3 ->
     0 <= fst (Mpi.porcion params 3 rank)
       <= snd (Mpi.porcion params 3 rank) /\
     snd (Mpi.porcion params 3 rank) <= 10) /\
  (forall i, 0 <= i < 10 ->
     exists rank, 0 <= rank < 3 /\
       fst (Mpi.porcion params 3 rank) <= i < snd (Mpi.porcion params 3 rank)) /\
  (forall i r1 r2, 0 <= r1 < 3 -> 0 <= r2 < 3 ->
     fst (Mpi.porcion params 3 r1) <= i < snd (Mpi.porcion params 3 r1) ->
     fst (Mpi.porcion params 3 r2) <= i < snd (Mpi.porcion params 3 r2) ->
     r1 = r2).
Proof.
  apply (particion_completa {| Mpi.a := 0%float; Mpi.b := 1%float; Mpi.n := 10 |} 3);
    simpl; unfold max_long, max_int; lia.
Defined.

(** C3. With [base = n / w] (truncating), every rank in [0 .. w-2] gets
    exactly [base] indices from [rank * base], and the last rank gets
    [[(w-1) * base, n)], that is [base] indices and the remainder [n mod w]. *)
Theorem reparto_base_y_resto {F : Type} (params : Mpi.IntegracionParams F) (size : Z) :
  0 < Mpi.n params <= max_long ->
  1 <= size <= max_int ->
  let base := Z.quot (Mpi.n params) size in
  (forall rank, 0 <= rank < size - 1 ->
     Mpi.porcion params size rank = (rank * base, rank * base + base)) /\
  Mpi.porcion params size (size - 1) = ((size - 1) * base, Mpi.n params) /\
  Mpi.n params - (size - 1) * base = base + Z.rem (Mpi.n params) size.
Proof.
  intros Hn Hs base. subst base.
  rewrite Z.quot_div_nonneg, Z.rem_mod_nonneg by lia.
  repeat split.
  - intros rank Hr. rewrite porcion_eq by (assumption || lia).
    destruct (Z.eqb_spec rank (size - 1)); [lia | reflexivity].
  - rewrite porcion_eq by (assumption || lia).
    rewrite Z.eqb_refl. reflexivity.
  - pose proof (Z.div_mod (Mpi.n params) size ltac:(lia)). nia.
Qed.

Lemma reparto_base_y_resto_testigo :
  let params := {| Mpi.a := 0%float; Mpi.b := 1%float; Mpi.n := 10 |} in
  (forall rank, 0 <= rank < 4 - 1 ->
     Mpi.porcion params 4 rank = (rank * 2, rank * 2 + 2)) /\
  Mpi.porcion params 4 (4 - 1) = ((4 - 1) * 2, 10) /\
  10 - (4 - 1) * 2 = 2 + 2.
Proof.
  apply (reparto_base_y_resto {| Mpi.a := 0%float; Mpi.b := 1%float; Mpi.n := 10 |} 4);
    simpl; unfold max_long, max_int; lia.
Defined.

(** C4, as stated, fails: with [n = 1] and [w = 2 > n] the range of the high
    rank 1 is [[0, 1)], not empty; the empty range is that of rank 0. *)
Lemma rango_alto_no_vacio :
  let params := {| Mpi.a := 0%float; Mpi.b := 1%float; Mpi.n := 1 |} in
  0 < Mpi.n params /\ Mpi.n params < 2 /\
  Mpi.porcion params 2 0 = (0, 0) /\
  Mpi.porcion params 2 1 = (0, 1) /\
  fst (Mpi.porcion params 2 1) <> snd (Mpi.porcion params 2 1).
Proof.
  vm_compute. repeat split; discriminate.
Qed.

(** C4, amended. For [n > 0] and [w > n] the base size is 0: every rank but
    the last gets the empty range [[0, 0)], and the last rank, [w - 1], gets
    the whole of [[0, n)]. *)
Theorem rangos_vacios_salvo_el_ultimo {F : Type}
    (params : Mpi.IntegracionParams F) (size : Z) :
  0 < Mpi.n params <= max_long ->
  Mpi.n params < size <= max_int ->
  (forall rank, 0 <= rank < size - 1 -> Mpi.porcion params size rank = (0, 0)) /\
  Mpi.porcion params size (size - 1) = (0, Mpi.n params).
Proof.
  intros Hn Hs.
  assert (Hbase : Mpi.n params / size = 0) by (apply Z.div_small; lia).
  split.
  - intros rank Hr. rewrite porcion_eq by (assumption || lia).
    rewrite Hbase.
    destruct (Z.eqb_spec rank (size - 1)); [lia|].
    f_equal; lia.
  - rewrite porcion_eq by (assumption || lia).
    rewrite Hbase, Z.eqb_refl. f_equal; lia.
Qed.

Lemma rangos_vacios_salvo_el_ultimo_testigo :
  let params := {| Mpi.a := 0%float; Mpi.b := 1%float; Mpi.n := 3 |} in
  (forall rank, 0 <= rank < 5 - 1 -> Mpi.porcion params 5 rank = (0, 0)) /\
  Mpi.porcion params 5 (5 - 1) = (0, 3).
Proof.
  apply (rangos_vacios_salvo_el_ultimo
           {| Mpi.a := 0%float; Mpi.b := 1%float; Mpi.n := 3 |} 5);
    simpl; unfold max_long, max_int; lia.
Defined.

(** ** The range sum *)

Section SumaDeRango.
Context {F : Type} `{Aritmetica F}.
Variable funcion : F -> F.

Import Especificacion.

Lemma indices_vacio (i : Z) : indices i i = [].
Proof. unfold indices. rewrite Z.sub_diag. reflexivity. Qed.

Lemma indices_cons (i fin : Z) :
  i < fin -> indices i fin = i :: indices (i + 1) fin.
Proof.
  intros Hlt. unfold indices.
  replace (Z.to_nat (fin - i)) with (S (Z.to_nat (fin - (i + 1)))) by lia.
  cbn [seq map]. f_equal; [lia|].
  rewrite <- seq_shift, map_map.
  apply map_ext. intros k. lia.
Qed.

Lemma indices_app (i medio_ fin : Z) :
  i <= medio_ <= fin -> indices i fin = indices i medio_ ++ indices medio_ fin.
Proof.
  intros [H1 H2].
  remember (Z.to_nat (medio_ - i)) as k eqn:Hk.
  revert i H1 Hk. induction k as [|k IH]; intros i H1 Hk.
  - assert (i = medio_) by lia. subst i. rewrite indices_vacio. reflexivity.
  - rewrite (indices_cons i fin) by lia.
    rewrite (indices_cons i medio_) by lia.
    cbn [app]. f_equal. apply IH; lia.
Qed.

Lemma indices_en_rango (i fin j : Z) : In j (indices i fin) -> i <= j < fin.
Proof.
  unfold indices. rewrite in_map_iff. intros (k & <- & Hk).
  apply in_seq in Hk. lia.
Qed.

(** The loop of [Mpi.calcular_suma_riemann] adds the terms of its indices
    to its accumulator, left to right. *)
Lemma mpi_bucle_fold (params : Mpi.IntegracionParams F) (delta_x : F)
    (k : nat) (i : Z) (suma : F) :
  0 <= i -> i + Z.of_nat k <= max_long ->
  Mpi.bucle funcion params delta_x k i suma =
    fold_left suma_f
      (map (termino funcion (Mpi.a params) delta_x) (indices i (i + Z.of_nat k)))
      suma.
Proof.
  revert i suma. induction k as [|k IH]; intros i suma Hi Hmax.
  - rewrite Z.add_0_r, indices_vacio. reflexivity.
  - rewrite indices_cons by lia. cbn [Mpi.bucle map fold_left].
    rewrite long_add_exact
      by (unfold in_long, min_long, max_long in *; lia).
    rewrite IH by lia.
    replace (i + 1 + Z.of_nat k) with (i + Z.of_nat (S k)) by lia.
    reflexivity.
Qed.

(** The two loops are the same loop. *)
Lemma bucles_iguales (params : Mpi.IntegracionParams F) (delta_x : F)
    (k : nat) (i : Z) (suma : F) :
  Secuencial.bucle funcion (Mpi.a params) delta_x k i suma =
  Mpi.bucle funcion params delta_x k i suma.
Proof.
  revert i suma. induction k as [|k IH]; intros i suma.
  - reflexivity.
  - cbn [Secuencial.bucle Mpi.bucle]. apply IH.
Qed.

Lemma secuencial_es_mpi (a b : F) (n : Z) :
  Secuencial.calcular_suma_riemann funcion a b n =
  Mpi.calcular_suma_riemann funcion
    {| Mpi.a := a; Mpi.b := b; Mpi.n := n |} 0 n.
Proof.
  unfold Secuencial.calcular_suma_riemann, Mpi.calcular_suma_riemann.
  cbn [Mpi.a Mpi.b Mpi.n].
  apply (bucles_iguales {| Mpi.a := a; Mpi.b := b; Mpi.n := n |}).
Qed.

Lemma mpi_rango_vacio (params : Mpi.IntegracionParams F) (inicio : Z) :
  Mpi.calcular_suma_riemann funcion params inicio inicio = cero.
Proof.
  unfold Mpi.calcular_suma_riemann. rewrite Z.sub_diag. reflexivity.
Qed.

Lemma mpi_es_RangeSum (params : Mpi.IntegracionParams F) (inicio fin : Z) :
  0 <= inicio -> inicio <= fin -> fin <= max_long ->
  Mpi.calcular_suma_riemann funcion params inicio fin =
  RangeSum funcion (Mpi.a params) (Mpi.b params) (Mpi.n params) inicio fin.
Proof.
  intros H0 H1 H2. unfold Mpi.calcular_suma_riemann.
  rewrite mpi_bucle_fold by lia.
  rewrite Z2Nat.id by lia.
  replace (inicio + (fin - inicio)) with fin by lia.
  reflexivity.
Qed.

Lemma secuencial_es_RangeSum (a b : F) (n : Z) :
  0 <= n <= max_long ->
  Secuencial.calcular_suma_riemann funcion a b n = RangeSum funcion a b n 0 n.
Proof.
  intros Hn. rewrite secuencial_es_mpi.
  rewrite mpi_es_RangeSum by (cbn; lia). reflexivity.
Qed.

Lemma terminos_app (a b : F) (n i medio_ fin : Z) :
  i <= medio_ <= fin ->
  terminos funcion a b n i fin =
  terminos funcion a b n i medio_ ++ terminos funcion a b n medio_ fin.
Proof.
  intros Hr. unfold terminos.
  rewrite (indices_app i medio_ fin Hr). apply map_app.
Qed.

End SumaDeRango.

(** ** The reduction *)

#[export] Instance reales_exacta : Exacta R.
Proof.
  split; intros; simpl; ring.
Qed.

Section Reduccion.
Context {F : Type} `{Aritmetica F}.
Variable funcion : F -> F.

Import Especificacion.

Lemma rangos_succ (k : nat) :
  Mpi.rangos (Z.of_nat (S k)) = Mpi.rangos (Z.of_nat k) ++ [Z.of_nat k].
Proof.
  unfold Mpi.rangos. rewrite !Nat2Z.id, seq_S, map_app. reflexivity.
Qed.

Lemma rangos_en_rango (size rank : Z) :
  In rank (Mpi.rangos size) -> 0 <= rank < size.
Proof.
  unfold Mpi.rangos. rewrite in_map_iff. intros (k & <- & Hk).
  apply in_seq in Hk. lia.
Qed.

Lemma rangos_length (size : Z) : List.length (Mpi.rangos size) = Z.to_nat size.
Proof. unfold Mpi.rangos. rewrite length_map, length_seq. reflexivity. Qed.

(** The ranges of the first [k] ranks, all of size [base], put end to end,
    are the indices below [k * base]. *)
Lemma indices_de_rangos (base : Z) (k : nat) :
  0 <= base ->
  List.concat (map (fun rank => indices (rank * base) (rank * base + base))
              (Mpi.rangos (Z.of_nat k))) =
  indices 0 (Z.of_nat k * base).
Proof.
  intros Hb. induction k as [|k IH].
  - reflexivity.
  - rewrite rangos_succ, map_app, concat_app, IH. cbn [map List.concat].
    rewrite app_nil_r.
    rewrite (indices_app 0 (Z.of_nat k * base) (Z.of_nat (S k) * base)) by nia.
    do 2 f_equal. lia.
Qed.

Section ConParams.
Variable params : Mpi.IntegracionParams F.
Variable size : Z.
Hypothesis n_positivo : 0 < Mpi.n params <= max_long.
Hypothesis size_positivo : 1 <= size <= max_int.

Lemma suma_local_es_sumar (rank : Z) :
  0 <= rank < size ->
  Mpi.suma_local funcion params size rank =
  sumar (let '(inicio, fin) := Mpi.porcion params size rank in
         terminos funcion (Mpi.a params) (Mpi.b params) (Mpi.n params)
           inicio fin).
Proof.
  intros Hr. unfold Mpi.suma_local.
  pose proof (porcion_dentro params size n_positivo size_positivo rank Hr)
    as Hdentro.
  destruct (Mpi.porcion params size rank) as [inicio fin].
  cbn [fst snd] in Hdentro.
  apply mpi_es_RangeSum; lia.
Qed.

Lemma suma_total_por_rango :
  Mpi.suma_total funcion params size =
  Mpi.MPI_Reduce_SUM (map sumar (terminos_por_rango funcion params size)).
Proof.
  unfold Mpi.suma_total, terminos_por_rango. rewrite map_map.
  f_equal. apply map_ext_in. intros rank Hin.
  apply suma_local_es_sumar, rangos_en_rango, Hin.
Qed.

Lemma indices_por_rango_concat :
  List.concat
    (map (fun rank => let '(inicio, fin) := Mpi.porcion params size rank in
                      indices inicio fin)
         (Mpi.rangos size)) =
  indices 0 (Mpi.n params).
Proof.
  pose proof (base_acotada params size n_positivo size_positivo) as [Hb0 Hb].
  set (base := Mpi.n params / size) in *.
  remember (Z.to_nat (size - 1)) as k eqn:Hk.
  assert (Hk' : Z.of_nat k = size - 1) by lia.
  replace (Mpi.rangos size) with (Mpi.rangos (Z.of_nat (S k)))
    by (f_equal; lia).
  rewrite rangos_succ, map_app, concat_app.
  rewrite (map_ext_in _
             (fun rank => indices (rank * base) (rank * base + base))).
  - rewrite indices_de_rangos by assumption.
    rewrite Hk'. cbn [map List.concat].
    rewrite app_nil_r, porcion_eq by (assumption || lia).
    fold base. rewrite Z.eqb_refl.
    symmetry. apply indices_app. nia.
  - intros rank Hin. apply rangos_en_rango in Hin.
    rewrite porcion_eq by (assumption || lia). fold base.
    destruct (Z.eqb_spec rank (size - 1)); [lia | reflexivity].
Qed.

Lemma terminos_por_rango_concat :
  List.concat (terminos_por_rango funcion params size) =
  terminos funcion (Mpi.a params) (Mpi.b params) (Mpi.n params)
    0 (Mpi.n params).
Proof.
  unfold terminos_por_rango, terminos.
  rewrite <- indices_por_rango_concat, concat_map, map_map.
  reflexivity.
Qed.

Lemma terminos_por_rango_length :
  List.length (terminos_por_rango funcion params size) = Z.to_nat size.
Proof.
  unfold terminos_por_rango. rewrite length_map. apply rangos_length.
Qed.

(** One process: the reduction returns the only contribution, the sum
    over the whole range. *)
Lemma suma_total_un_proceso :
  size = 1 ->
  Mpi.suma_total funcion params size =
  Secuencial.calcular_suma_riemann funcion
    (Mpi.a params) (Mpi.b params) (Mpi.n params).
Proof.
  intros ->. unfold Mpi.suma_total.
  change (Mpi.rangos 1) with [0].
  cbn [map Mpi.MPI_Reduce_SUM]. unfold Mpi.suma_local.
  rewrite porcion_eq by (assumption || lia).
  change (0 =? 1 - 1) with true. cbn [Z.mul].
  rewrite secuencial_es_mpi. destruct params; reflexivity.
Qed.

End ConParams.

(** *** Exact arithmetic *)

Context `{!Exacta F}.

Lemma fold_suma_asoc (l : list F) (x y : F) :
  (x + fold_left suma_f l y)%arit = fold_left suma_f l (x + y)%arit.
Proof.
  revert y. induction l as [|t l IH]; intros y; cbn [fold_left].
  - reflexivity.
  - rewrite IH, suma_asociativa. reflexivity.
Qed.

Lemma sumar_app (l l' : list F) :
  sumar (l ++ l') = (sumar l + sumar l')%arit.
Proof.
  unfold sumar. rewrite fold_left_app, fold_suma_asoc, suma_cero_der.
  reflexivity.
Qed.

Lemma fold_sumar_concat (trozos : list (list F)) (s : F) :
  fold_left suma_f (map sumar trozos) s = (s + sumar (List.concat trozos))%arit.
Proof.
  revert s. induction trozos as [|c r IH]; intros s; cbn [map fold_left List.concat].
  - unfold sumar. cbn. rewrite suma_cero_der. reflexivity.
  - rewrite IH, sumar_app, suma_asociativa. reflexivity.
Qed.

Lemma reduce_sumar_concat (trozos : list (list F)) :
  Mpi.MPI_Reduce_SUM (map sumar trozos) = sumar (List.concat trozos).
Proof.
  destruct trozos as [|c r]; cbn [map Mpi.MPI_Reduce_SUM List.concat].
  - reflexivity.
  - rewrite fold_sumar_concat, sumar_app. reflexivity.
Qed.

Lemma suma_total_exacta (params : Mpi.IntegracionParams F) (size : Z) :
  0 < Mpi.n params <= max_long ->
  1 <= size <= max_int ->
  Mpi.suma_total funcion params size =
  Secuencial.calcular_suma_riemann funcion
    (Mpi.a params) (Mpi.b params) (Mpi.n params).
Proof.
  intros Hn Hs.
  rewrite suma_total_por_rango by assumption.
  rewrite reduce_sumar_concat, terminos_por_rango_concat by assumption.
  rewrite secuencial_es_RangeSum by lia. reflexivity.
Qed.

Lemma suma_de_rango_exacta (params : Mpi.IntegracionParams F)
    (inicio medio_ fin : Z) :
  0 <= inicio -> inicio <= medio_ -> medio_ <= fin -> fin <= max_long ->
  (Mpi.calcular_suma_riemann funcion params inicio medio_ +
   Mpi.calcular_suma_riemann funcion params medio_ fin)%arit =
  Mpi.calcular_suma_riemann funcion params inicio fin.
Proof.
  intros H0 H1 H2 H3.
  rewrite !mpi_es_RangeSum by lia. unfold RangeSum.
  rewrite (terminos_app funcion _ _ _ inicio medio_ fin) by lia.
  rewrite sumar_app. reflexivity.
Qed.

End Reduccion.

(** ** The claims on the range sum and on the reduction *)

(** C5. [calcular_suma_riemann] on an empty range, [inicio = fin], returns
    exactly [0.0], whatever [a], [b], [n] and the integrand are (so in
    particular for [n > 0] and [0 <= inicio <= n]); as a total function it
    has no error to raise. *)
Theorem rango_vacio_da_cero (funcion : float -> float)
    (a b : float) (n inicio : Z) :
  Mpi.calcular_suma_riemann funcion
    {| Mpi.a := a; Mpi.b := b; Mpi.n := n |} inicio inicio = 0%float.
Proof.
  exact (@mpi_rango_vacio float binary64 funcion _ inicio).
Qed.

(** C6. For [0 <= start <= end <= n], [calcular_suma_riemann] returns the
    specification's RangeSum: [delta_x = (b - a) / n] computed once, one
    accumulator started at [0.0], the terms
    [f(a + (i + 0.5) * delta_x) * delta_x] added for [i = start .. end - 1] in
    ascending order; the sequential routine is the same sum over [[0, n)]. *)
Theorem calcular_suma_riemann_es_RangeSum (funcion : float -> float)
    (a b : float) (n start end_ : Z) :
  0 < n <= max_long ->
  0 <= start -> start <= end_ -> end_ <= n ->
  Mpi.calcular_suma_riemann funcion
    {| Mpi.a := a; Mpi.b := b; Mpi.n := n |} start end_ =
    Especificacion.RangeSum funcion a b n start end_ /\
  Secuencial.calcular_suma_riemann funcion a b n =
    Especificacion.RangeSum funcion a b n 0 n.
Proof.
  intros Hn H0 H1 H2. split.
  - apply (mpi_es_RangeSum funcion
             {| Mpi.a := a; Mpi.b := b; Mpi.n := n |}); lia.
  - apply secuencial_es_RangeSum. lia.
Qed.

Lemma calcular_suma_riemann_es_RangeSum_testigo :
  Mpi.calcular_suma_riemann (fun x => (x * x)%float)
    {| Mpi.a := 0%float; Mpi.b := 1%float; Mpi.n := 4 |} 1 3 =
    Especificacion.RangeSum (fun x => (x * x)%float) 0%float 1%float 4 1 3 /\
  Secuencial.calcular_suma_riemann (fun x => (x * x)%float) 0%float 1%float 4 =
    Especificacion.RangeSum (fun x => (x * x)%float) 0%float 1%float 4 0 4.
Proof.
  apply (calcular_suma_riemann_es_RangeSum
           (fun x => (x * x)%float) 0%float 1%float 4 1 3);
    unfold max_long; lia.
Defined.

(** C10. The sequential [calcular_suma_riemann(a, b, n)] and the distributed
    [calcular_suma_riemann({a, b, n}, 0, n)] run the same floating-point
    operations in the same order: their results are the same [double], for
    every [a], [b] and [n] (so in particular for [n > 0]). *)
Theorem secuencial_igual_a_mpi_en_rango_completo (funcion : float -> float)
    (a b : float) (n : Z) :
  Secuencial.calcular_suma_riemann funcion a b n =
  Mpi.calcular_suma_riemann funcion
    {| Mpi.a := a; Mpi.b := b; Mpi.n := n |} 0 n.
Proof.
  exact (@secuencial_es_mpi float binary64 funcion a b n).
Qed.

(** C9. In an exact arithmetic (associative addition with [0.0] neutral, as
    the real or the rational numbers) the range sum is additive over adjacent
    ranges: for [0 <= start <= mid <= end <= n],
    RangeSum(start, mid) + RangeSum(mid, end) = RangeSum(start, end). *)
Theorem suma_de_rango_aditiva {F : Type} `{Exacta F} (funcion : F -> F)
    (a b : F) (n start mid end_ : Z) :
  0 < n <= max_long ->
  0 <= start -> start <= mid -> mid <= end_ -> end_ <= n ->
  (Mpi.calcular_suma_riemann funcion
     {| Mpi.a := a; Mpi.b := b; Mpi.n := n |} start mid +
   Mpi.calcular_suma_riemann funcion
     {| Mpi.a := a; Mpi.b := b; Mpi.n := n |} mid end_)%arit =
  Mpi.calcular_suma_riemann funcion
    {| Mpi.a := a; Mpi.b := b; Mpi.n := n |} start end_.
Proof.
  intros Hn Hs Hsm Hme He. apply suma_de_rango_exacta; (assumption || lia).
Qed.

Lemma suma_de_rango_aditiva_testigo :
  (Mpi.calcular_suma_riemann sin
     {| Mpi.a := 0%R; Mpi.b := PI; Mpi.n := 4 |} 0 1 +
   Mpi.calcular_suma_riemann sin
     {| Mpi.a := 0%R; Mpi.b := PI; Mpi.n := 4 |} 1 4)%R =
  Mpi.calcular_suma_riemann sin
    {| Mpi.a := 0%R; Mpi.b := PI; Mpi.n := 4 |} 0 4.
Proof.
  refine (suma_de_rango_aditiva (F := R) sin 0%R PI 4 0 1 4 _ _ _ _ _);
    unfold max_long; lia.
Defined.

(** C1. For [n > 0] and [w >= 1] workers, the total that the reduction (by
    addition, in rank order) makes of the [w] partial sums is the sequential
    sum up to the grouping of the additions: the workers' terms, put end to
    end in rank order, are the terms of the sequential sum, each worker adds
    its own from [0.0] and the reduction adds the workers' sums.  The two
    results are the same [double] when [w = 1], and equal for every [w] in any
    exact arithmetic. *)
Theorem paralelo_equivale_a_secuencial (funcion : float -> float)
    (params : Mpi.IntegracionParams float) (size : Z) :
  0 < Mpi.n params <= max_long ->
  1 <= size <= max_int ->
  let secuencial :=
    Secuencial.calcular_suma_riemann funcion
      (Mpi.a params) (Mpi.b params) (Mpi.n params) in
  let trozos := Especificacion.terminos_por_rango funcion params size in
  (List.length trozos = Z.to_nat size /\
   Mpi.suma_total funcion params size =
     Mpi.MPI_Reduce_SUM (map Especificacion.sumar trozos) /\
   secuencial = Especificacion.sumar (List.concat trozos)) /\
  (size = 1 -> Mpi.suma_total funcion params size = secuencial) /\
  (forall (G : Type) (AG : Aritmetica G) (EG : Exacta G) (g : G -> G)
          (p : Mpi.IntegracionParams G),
     0 < Mpi.n p <= max_long ->
     Mpi.suma_total g p size =
     Secuencial.calcular_suma_riemann g (Mpi.a p) (Mpi.b p) (Mpi.n p)).
Proof.
  intros Hn Hs secuencial trozos. subst secuencial trozos.
  repeat split.
  - apply terminos_por_rango_length.
  - apply suma_total_por_rango; assumption.
  - rewrite terminos_por_rango_concat by assumption.
    apply secuencial_es_RangeSum. lia.
  - apply suma_total_un_proceso; assumption.
  - intros G AG EG g p Hp. apply suma_total_exacta; assumption.
Qed.

Lemma paralelo_equivale_a_secuencial_testigo :
  let funcion := fun x : float => (x * x)%float in
  let params := {| Mpi.a := 0%float; Mpi.b := 1%float; Mpi.n := 10 |} in
  let secuencial := Secuencial.calcular_suma_riemann funcion 0%float 1%float 10 in
  let trozos := Especificacion.terminos_por_rango funcion params 3 in
  (List.length trozos = Z.to_nat 3 /\
   Mpi.suma_total funcion params 3 =
     Mpi.MPI_Reduce_SUM (map Especificacion.sumar trozos) /\
   secuencial = Especificacion.sumar (List.concat trozos)) /\
  (3 = 1 -> Mpi.suma_total funcion params 3 = secuencial) /\
  (forall (G : Type) (AG : Aritmetica G) (EG : Exacta G) (g : G -> G)
          (p : Mpi.IntegracionParams G),
     0 < Mpi.n p <= max_long ->
     Mpi.suma_total g p 3 =
     Secuencial.calcular_suma_riemann g (Mpi.a p) (Mpi.b p) (Mpi.n p)).
Proof.
  apply (paralelo_equivale_a_secuencial (fun x : float => (x * x)%float)
           {| Mpi.a := 0%float; Mpi.b := 1%float; Mpi.n := 10 |} 3);
    simpl; unfold max_long, max_int; lia.
Defined.

(** On doubles the grouping does show: the integral of [x * x] over
    [[0, 1]] with 7 subintervals, on two workers, differs from the sequential
    sum in the last place. *)
Example reagrupar_cambia_el_ultimo_bit :
  (Mpi.suma_total (fun x => (x * x)%float)
     {| Mpi.a := 0%float; Mpi.b := 1%float; Mpi.n := 7 |} 2 =?
   Secuencial.calcular_suma_riemann (fun x => (x * x)%float) 0%float 1%float 7)%float
  = false.
Proof. vm_compute. reflexivity. Qed.

(** ** Argument validation *)

Ltac correr :=
  unfold ejecutar, bind, cuando, fprintf_stderr, printf, emitir, terminar, ret,
    leer_reloj, inicial;
  cbn [negb orb traza lecturas fst snd].

Ltac es_rechazo :=
  cbn [rev app fst snd]; unfold rechazada, EXIT_FAILURE; cbn [fst snd];
  split; [discriminate | split; [discriminate | repeat constructor]].

Lemma secuencial_rechaza (funcion : float -> float) (env : Entorno float)
    (argv : list string) :
  List.length argv <> 4%nat \/ atol env (arg argv 3) <= 0 ->
  rechazada (ejecutar (Secuencial.main funcion env argv)).
Proof.
  intros Hmal. unfold Secuencial.main.
  destruct (Z.eqb_spec (Z.of_nat (List.length argv)) 4) as [Hargc | Hargc].
  - destruct (Z.leb_spec (atol env (arg argv 3)) 0) as [Hn | Hn]; [|lia].
    correr. es_rechazo.
  - correr. es_rechazo.
Qed.

Lemma openmp_rechaza (funcion : float -> float) (reparto : Z -> Z -> list (list Z))
    (env : Entorno float) (argv : list string) :
  List.length argv <> 5%nat \/ atol env (arg argv 3) <= 0 \/
    atoi env (arg argv 4) <= 0 ->
  rechazada (ejecutar (OpenMP.main funcion reparto env argv)).
Proof.
  intros Hmal. unfold OpenMP.main.
  destruct (Z.eqb_spec (Z.of_nat (List.length argv)) 5) as [Hargc | Hargc].
  - destruct (Z.leb_spec (atol env (arg argv 3)) 0) as [Hn | Hn].
    + correr. es_rechazo.
    + destruct (Z.leb_spec (atoi env (arg argv 4)) 0) as [Hh | Hh]; [|lia].
      correr. es_rechazo.
  - correr. es_rechazo.
Qed.

Lemma mpi_rechaza (funcion : float -> float) (env : Entorno float)
    (size : Z) (argv : list string) :
  List.length argv <> 4%nat \/ atol env (arg argv 3) <= 0 ->
  rechazada (ejecutar (Mpi.main funcion env size argv)).
Proof.
  intros Hmal. unfold Mpi.main.
  destruct (Z.eqb_spec (Z.of_nat (List.length argv)) 4) as [Hargc | Hargc].
  - cbn [Mpi.n].
    destruct (Z.leb_spec (atol env (arg argv 3)) 0) as [Hn | Hn]; [|lia].
    correr. es_rechazo.
  - correr. es_rechazo.
Qed.

(** A rejected run prints nothing on standard output (so no "Resultado"
    line), and neither reads a clock nor calls the numeric routine. *)
Lemma rechazada_sin_salida {F : Type} (r : list (evento F) * Z) :
  rechazada r ->
  (forall formato args, ~ In (Stdout formato args) (fst r)) /\
  (forall x, ~ In (Calculo x) (fst r)) /\
  ~ In Reloj (fst r).
Proof.
  intros (_ & _ & Hall). rewrite Forall_forall in Hall.
  repeat split; repeat intro;
    match goal with Hin : In _ _ |- _ => apply Hall in Hin; exact Hin end.
Qed.

Example secuencial_n_cero :
  ejecutar (Secuencial.main (fun x => x) entorno_de_prueba
              ["./riemann_suma_secuencial"; "0"; "3.14"; "0"]) =
  ([Stderr "El número de subintervalos debe ser un entero positivo.\n" []],
   EXIT_FAILURE).
Proof. vm_compute. reflexivity. Qed.

Example secuencial_n_valido :
  ejecutar (Secuencial.main (fun x => x) entorno_de_prueba
              ["./riemann_suma_secuencial"; "0"; "3.14"; "2"]) =
  ([Stdout "Aproximando la integral de sin(x) desde %.6f hasta %.6f con %ld subintervalos.\n"
      [VDouble 0%float; VDouble 0%float; VLong 2];
    Reloj; Calculo 0%float; Reloj;
    Stdout "Resultado de la integral aproximada: %.12f\n" [VDouble 0%float];
    Stdout "Tiempo de ejecución: %.6f segundos.\n"
      [VDouble (1 / 1000000)%float]],
   EXIT_SUCCESS).
Proof. vm_compute. reflexivity. Qed.

(** C8. A run with a malformed argument count, with [n <= 0], or (OpenMP) with
    a non-positive number of threads is rejected by each of the three
    programs: messages on standard error, exit status nonzero, nothing on
    standard output (no "Resultado" line), no clock read and no computation;
    the check comes before any work is handed out. *)
Theorem entrada_invalida_rechazada (funcion : float -> float)
    (reparto : Z -> Z -> list (list Z)) (env : Entorno float)
    (size : Z) (argv : list string) :
  (List.length argv <> 4%nat \/ atol env (arg argv 3) <= 0 ->
   let r := ejecutar (Secuencial.main funcion env argv) in
   rechazada r /\
   (forall formato args, ~ In (Stdout formato args) (fst r)) /\
   (forall x, ~ In (Calculo x) (fst r))) /\
  (List.length argv <> 5%nat \/ atol env (arg argv 3) <= 0 \/
     atoi env (arg argv 4) <= 0 ->
   let r := ejecutar (OpenMP.main funcion reparto env argv) in
   rechazada r /\
   (forall formato args, ~ In (Stdout formato args) (fst r)) /\
   (forall x, ~ In (Calculo x) (fst r))) /\
  (List.length argv <> 4%nat \/ atol env (arg argv 3) <= 0 ->
   let r := ejecutar (Mpi.main funcion env size argv) in
   rechazada r /\
   (forall formato args, ~ In (Stdout formato args) (fst r)) /\
   (forall x, ~ In (Calculo x) (fst r))).
Proof.
  split; [|split]; intros Hmal r; subst r.
  - pose proof (secuencial_rechaza funcion env argv Hmal) as Hr.
    destruct (rechazada_sin_salida _ Hr) as (Hout & Hcalc & _). auto.
  - pose proof (openmp_rechaza funcion reparto env argv Hmal) as Hr.
    destruct (rechazada_sin_salida _ Hr) as (Hout & Hcalc & _). auto.
  - pose proof (mpi_rechaza funcion env size argv Hmal) as Hr.
    destruct (rechazada_sin_salida _ Hr) as (Hout & Hcalc & _). auto.
Qed.

Lemma entrada_invalida_rechazada_testigo :
  rechazada (ejecutar (Secuencial.main (fun x => x) entorno_de_prueba
               ["./riemann_suma_secuencial"; "0"; "3.14"; "-5"])) /\
  rechazada (ejecutar (OpenMP.main (fun x => x) (fun _ _ => []) entorno_de_prueba
               ["./openmp_riemann_suma"; "0"; "3.14"; "100"; "0"])) /\
  rechazada (ejecutar (Mpi.main (fun x => x) entorno_de_prueba 4
               ["./mpi_riemann_suma"; "0"; "3.14"])).
Proof.
  split; [|split].
  - apply (entrada_invalida_rechazada (fun x => x) (fun _ _ => [])
             entorno_de_prueba 4
             ["./riemann_suma_secuencial"; "0"; "3.14"; "-5"]).
    right. vm_compute. discriminate.
  - apply (entrada_invalida_rechazada (fun x => x) (fun _ _ => [])
             entorno_de_prueba 4
             ["./openmp_riemann_suma"; "0"; "3.14"; "100"; "0"]).
    right. right. vm_compute. discriminate.
  - apply (entrada_invalida_rechazada (fun x => x) (fun _ _ => [])
             entorno_de_prueba 4
             ["./mpi_riemann_suma"; "0"; "3.14"]).
    left. cbn. discriminate.
Defined.

(** ** Rounding to binary64

    What the proofs on doubles need of the rounding of [SpecFloat]: the number
    of digits of a mantissa after a shift, and from it that a value of
    moderate size rounds to a finite double, and a positive one to a positive
    double. *)

Lemma digits2_pos_cotas (p : positive) :
  2 ^ (Zpos (digits2_pos p) - 1) <= Zpos p < 2 ^ Zpos (digits2_pos p).
Proof.
  induction p as [p IH | p IH |]; cbn [digits2_pos].
  - rewrite Pos2Z.inj_succ.
    replace (Z.succ (Zpos (digits2_pos p)) - 1) with (Z.succ (Zpos (digits2_pos p) - 1)) by lia.
    rewrite !Z.pow_succ_r by lia. lia.
  - rewrite Pos2Z.inj_succ.
    replace (Z.succ (Zpos (digits2_pos p)) - 1) with (Z.succ (Zpos (digits2_pos p) - 1)) by lia.
    rewrite !Z.pow_succ_r by lia. lia.
  - cbn. lia.
Qed.

Lemma Zdigits2_no_negativo (m : Z) : 0 <= Zdigits2 m.
Proof. destruct m; cbn; lia. Qed.

Lemma Zdigits2_positivo (m : Z) : 0 < m -> 0 < Zdigits2 m.
Proof. destruct m; cbn; lia. Qed.

Lemma Zdigits2_cota_inferior (m : Z) : 0 < m -> 2 ^ (Zdigits2 m - 1) <= m.
Proof.
  destruct m as [|p|p]; try lia. intros _. apply digits2_pos_cotas.
Qed.

Lemma Zdigits2_cota_superior (m : Z) : 0 <= m -> m < 2 ^ Zdigits2 m.
Proof.
  destruct m as [|p|p]; try lia; intros _.
  - cbn. lia.
  - apply digits2_pos_cotas.
Qed.

(** A number below [2 ^ D] has at most [D] digits. *)
Lemma Zdigits2_le (m D : Z) : 0 <= D -> 0 <= m < 2 ^ D -> Zdigits2 m <= D.
Proof.
  intros HD [Hm0 Hm].
  destruct (Z.eq_dec m 0) as [-> | Hne]; [cbn; lia|].
  pose proof (Zdigits2_cota_inferior m ltac:(lia)) as Hlow.
  pose proof (Zdigits2_positivo m ltac:(lia)) as Hpos.
  destruct (Z_le_gt_dec (Zdigits2 m) D) as [Hle | Hgt]; [exact Hle|].
  exfalso.
  assert (2 ^ D <= 2 ^ (Zdigits2 m - 1)) by (apply Z.pow_le_mono_r; lia).
  lia.
Qed.

Lemma shr_1_mitad (mrs : shr_record) :
  0 <= shr_m mrs -> shr_m (shr_1 mrs) = shr_m mrs / 2.
Proof.
  destruct mrs as [m r s]. cbn [shr_m]. intros Hm.
  rewrite <- Z.div2_div.
  destruct m as [|[p|p|]|p]; try reflexivity; lia.
Qed.

Lemma iter_pos_shr_1 (p : positive) (mrs : shr_record) :
  0 <= shr_m mrs ->
  shr_m (SpecFloat.iter_pos shr_1 p mrs) = shr_m mrs / 2 ^ Zpos p.
Proof.
  revert mrs. induction p as [p IH | p IH |]; intros mrs Hm; cbn [SpecFloat.iter_pos].
  - assert (H1 : 0 <= shr_m (shr_1 mrs))
      by (rewrite shr_1_mitad by assumption; apply Z.div_pos; lia).
    assert (H2 : 0 <= shr_m (SpecFloat.iter_pos shr_1 p (shr_1 mrs)))
      by (rewrite IH by assumption; apply Z.div_pos; lia).
    rewrite IH, IH, shr_1_mitad by assumption.
    pose proof (Z.pow_pos_nonneg 2 (Zpos p) ltac:(lia) ltac:(lia)).
    rewrite !Z.div_div by lia.
    f_equal.
    replace (Zpos p~1) with (1 + Zpos p + Zpos p) by lia.
    rewrite !Z.pow_add_r by lia. change (2 ^ 1) with 2. ring.
  - assert (H2 : 0 <= shr_m (SpecFloat.iter_pos shr_1 p mrs))
      by (rewrite IH by assumption; apply Z.div_pos; lia).
    rewrite IH, IH by assumption.
    pose proof (Z.pow_pos_nonneg 2 (Zpos p) ltac:(lia) ltac:(lia)).
    rewrite !Z.div_div by lia.
    f_equal.
    replace (Zpos p~0) with (Zpos p + Zpos p) by lia.
    rewrite Z.pow_add_r by lia. ring.
  - rewrite shr_1_mitad by assumption. reflexivity.
Qed.

Lemma fexp_64 (x : Z) : fexp prec emax x = Z.max (x - 53) (-1074).
Proof. reflexivity. Qed.

Lemma shr_m_of_loc (m : Z) (l : location) : shr_m (shr_record_of_loc m l) = m.
Proof. destruct l as [|[]]; reflexivity. Qed.

Lemma shr_fexp_cotas (m e : Z) (l : location) :
  0 <= m ->
  0 <= shr_m (fst (shr_fexp prec emax m e l)) /\
  snd (shr_fexp prec emax m e l) = Z.max e (fexp prec emax (Zdigits2 m + e)) /\
  (0 < shr_m (fst (shr_fexp prec emax m e l)) ->
   Zdigits2 (shr_m (fst (shr_fexp prec emax m e l))) + snd (shr_fexp prec emax m e l)
     <= Zdigits2 m + e) /\
  (0 < m -> -1074 < Zdigits2 m + e ->
   0 < shr_m (fst (shr_fexp prec emax m e l))).
Proof.
  intros Hm. unfold shr_fexp, shr.
  remember (fexp prec emax (Zdigits2 m + e) - e) as k eqn:Hk.
  destruct k as [|p|p]; cbn [fst snd]; rewrite ?shr_m_of_loc.
  - repeat split; lia.
  - rewrite iter_pos_shr_1 by (rewrite shr_m_of_loc; exact Hm).
    rewrite shr_m_of_loc.
    pose proof (Z.pow_pos_nonneg 2 (Zpos p) ltac:(lia) ltac:(lia)) as Hpow.
    repeat split.
    + apply Z.div_pos; lia.
    + lia.
    + intros Hpos.
      pose proof (Zdigits2_cota_inferior _ Hpos) as Hlow.
      pose proof (Zdigits2_cota_superior m Hm) as Hup.
      pose proof (Z.mul_div_le m (2 ^ Zpos p) Hpow) as Hmul.
      pose proof (Zdigits2_positivo _ Hpos) as Hd.
      assert (Hlt : Zdigits2 (m / 2 ^ Zpos p) - 1 + Zpos p < Zdigits2 m).
      { apply (Z.pow_lt_mono_r_iff 2); [lia | apply Zdigits2_no_negativo |].
        rewrite Z.pow_add_r by lia. nia. }
      lia.
    + intros Hpos Hemin.
      pose proof (Zdigits2_cota_inferior m Hpos) as Hlow.
      pose proof (Zdigits2_positivo m Hpos) as Hd.
      rewrite fexp_64 in Hk.
      apply Z.div_str_pos. split; [lia|].
      transitivity (2 ^ (Zdigits2 m - 1)); [|exact Hlow].
      apply Z.pow_le_mono_r; lia.
  - repeat split; lia.
Qed.

Lemma round_nearest_even_cotas (m : Z) (l : location) :
  m <= round_nearest_even m l <= m + 1.
Proof.
  destruct l as [|[]]; cbn [round_nearest_even]; try lia.
  destruct (Z.even m); lia.
Qed.

Lemma Zdigits2_succ (m r : Z) :
  0 <= m -> m <= r <= m + 1 -> Zdigits2 r <= Zdigits2 m + 1.
Proof.
  intros Hm Hr.
  pose proof (Zdigits2_cota_superior m Hm) as Hup.
  pose proof (Zdigits2_no_negativo m) as Hd.
  apply Zdigits2_le; [lia|].
  rewrite Z.pow_add_r by lia. change (2 ^ 1) with 2. lia.
Qed.

Lemma binary_round_aux_acotado (m e : Z) (l : location) (B : Z) :
  0 <= m -> Zdigits2 m + e <= B -> e <= B -> -1074 <= B -> B <= 971 ->
  acotado (B + 1) (binary_round_aux prec emax false m e l) /\
  (0 < m -> -1074 < Zdigits2 m + e ->
   positivo (binary_round_aux prec emax false m e l)).
Proof.
  intros Hm Hd He HB0 HB. unfold binary_round_aux.
  pose proof (shr_fexp_cotas m e l Hm) as (H1 & H2 & H3 & H4).
  destruct (shr_fexp prec emax m e l) as [mrs' e'] eqn:E1. cbn [fst snd] in *.
  pose proof (round_nearest_even_cotas (shr_m mrs') (loc_of_shr_record mrs')) as Hr.
  set (m1 := round_nearest_even (shr_m mrs') (loc_of_shr_record mrs')) in *.
  pose proof (Zdigits2_succ _ m1 H1 Hr) as Hd1.
  pose proof (shr_fexp_cotas m1 e' loc_Exact ltac:(lia)) as (G1 & G2 & G3 & G4).
  destruct (shr_fexp prec emax m1 e' loc_Exact) as [mrs'' e''] eqn:E2.
  cbn [fst snd] in *.
  pose proof (Zdigits2_no_negativo m) as Hdm.
  rewrite fexp_64 in H2, G2.
  assert (He' : e' <= B) by lia.
  assert (Hm1 : Zdigits2 m1 + e' <= B + 1).
  { destruct (Z.eq_dec (shr_m mrs') 0) as [Hz | Hnz].
    - rewrite Hz in Hd1. cbn in Hd1. lia.
    - lia. }
  destruct (shr_m mrs'') as [|p|p] eqn:Em; [| |lia].
  - split; [exact I|]. intros Hpos Hemin.
    specialize (H4 Hpos Hemin).
    pose proof (Zdigits2_positivo m1 ltac:(lia)).
    specialize (G4 ltac:(lia) ltac:(lia)). lia.
  - specialize (G3 ltac:(lia)). cbn [Zdigits2] in G3.
    assert (Hfin : (e'' <=? emax - prec) = true).
    { apply Z.leb_le. change (emax - prec) with 971. lia. }
    rewrite Hfin. cbn [acotado positivo]. split; [lia | intros; exact I].
Qed.

Lemma digits2_pos_iter_xO (m d : positive) :
  digits2_pos (Pos.iter xO m d) = (digits2_pos m + d)%positive.
Proof.
  induction d as [|d IH] using Pos.peano_ind.
  - cbn. lia.
  - rewrite Pos.iter_succ. cbn [digits2_pos]. rewrite IH. lia.
Qed.

Lemma shl_align_cotas (mx : positive) (ex ex' : Z) :
  Zpos (digits2_pos (fst (shl_align mx ex ex'))) + snd (shl_align mx ex ex') =
    Zpos (digits2_pos mx) + ex /\
  snd (shl_align mx ex ex') = Z.min ex ex'.
Proof.
  unfold shl_align. destruct (ex' - ex) as [|d|d] eqn:Hd; cbn [fst snd].
  - lia.
  - lia.
  - rewrite digits2_pos_iter_xO. lia.
Qed.

Lemma binary_round_acotado (mx : positive) (ex B : Z) :
  Zpos (digits2_pos mx) + ex <= B -> -1074 <= B -> B <= 971 ->
  acotado (B + 1) (binary_round prec emax false mx ex) /\
  (-1074 < Zpos (digits2_pos mx) + ex ->
   positivo (binary_round prec emax false mx ex)).
Proof.
  intros Hd HB0 HB. unfold binary_round.
  pose proof (shl_align_cotas mx ex
                (fexp prec emax (Zpos (digits2_pos mx) + ex))) as [Hs He].
  destruct (shl_align mx ex (fexp prec emax (Zpos (digits2_pos mx) + ex)))
    as [mz ez]. cbn [fst snd] in *.
  destruct (binary_round_aux_acotado (Zpos mz) ez loc_Exact B) as [Ha Hp];
    cbn [Zdigits2]; try lia.
  split; [exact Ha|]. intros Hemin. apply Hp; cbn [Zdigits2]; lia.
Qed.

Lemma binary_normalize_acotado (m e B : Z) :
  0 <= m -> Zdigits2 m + e <= B -> -1074 <= B -> B <= 971 ->
  acotado (B + 1) (binary_normalize prec emax m e false) /\
  (0 < m -> -1074 < Zdigits2 m + e ->
   positivo (binary_normalize prec emax m e false)).
Proof.
  intros Hm Hd HB0 HB. destruct m as [|p|p]; [| |lia]; cbn [binary_normalize].
  - split; [exact I | lia].
  - destruct (binary_round_acotado p e B) as [Ha Hp]; cbn [Zdigits2] in *; try lia.
    split; [exact Ha | intros _ Hemin; apply Hp; exact Hemin].
Qed.

Lemma acotado_mono (B B' : Z) (x : spec_float) :
  B <= B' -> acotado B x -> acotado B' x.
Proof.
  intros HB. destruct x as [[]|[]| |[] m e]; cbn; try tauto. lia.
Qed.

Lemma digits2_pos_suma (p q : positive) (D : Z) :
  Zpos (digits2_pos p) <= D -> Zpos (digits2_pos q) <= D ->
  Zpos (digits2_pos (p + q)) <= D + 1.
Proof.
  intros Hp Hq.
  pose proof (digits2_pos_cotas p) as [_ Hp'].
  pose proof (digits2_pos_cotas q) as [_ Hq'].
  assert (Zpos p < 2 ^ D).
  { eapply Z.lt_le_trans; [exact Hp'|]. apply Z.pow_le_mono_r; lia. }
  assert (Zpos q < 2 ^ D).
  { eapply Z.lt_le_trans; [exact Hq'|]. apply Z.pow_le_mono_r; lia. }
  change (Zpos (digits2_pos (p + q))) with (Zdigits2 (Zpos (p + q))).
  apply Zdigits2_le; [lia|].
  rewrite Z.pow_add_r by lia. change (2 ^ 1) with 2. lia.
Qed.

(** The sum of two non-negative numbers below [2 ^ B] is finite. *)
Lemma SFadd_acotado (B : Z) (x y : spec_float) :
  acotado B x -> acotado B y -> -1075 <= B -> B <= 970 ->
  acotado (B + 2) (SFadd prec emax x y).
Proof.
  intros Hx Hy HB0 HB.
  destruct x as [[]|[]| |[] mx ex]; cbn [acotado] in Hx; try contradiction;
  destruct y as [[]|[]| |[] my ey]; cbn [acotado] in Hy; try contradiction;
  cbn [SFadd acotado]; try exact I; try lia.
  cbn [cond_Zopp].
  pose proof (shl_align_cotas mx ex (Z.min ex ey)) as [Hax Hex].
  pose proof (shl_align_cotas my ey (Z.min ex ey)) as [Hay Hey].
  destruct (shl_align mx ex (Z.min ex ey)) as [ax ezx].
  destruct (shl_align my ey (Z.min ex ey)) as [ay ezy].
  cbn [fst snd] in *. cbn [Z.add].
  pose proof (digits2_pos_suma ax ay (B - Z.min ex ey) ltac:(lia) ltac:(lia)).
  destruct (binary_normalize_acotado (Zpos (ax + ay)) (Z.min ex ey) (B + 1))
    as [Ha _]; cbn [Zdigits2]; try lia.
  replace (B + 2) with (B + 1 + 1) by lia. exact Ha.
Qed.

(** ** Doubles *)

Lemma is_finite_spec (x : float) : is_finite x = SFfinito (Prim2SF x).
Proof.
  unfold is_finite, is_nan, is_infinity.
  rewrite !FloatAxioms.eqb_spec, FloatAxioms.abs_spec.
  change (Prim2SF infinity) with (S754_infinity false).
  destruct (Prim2SF x) as [s | s | | s m e];
    try reflexivity; try (destruct s; reflexivity).
  unfold SFeqb. cbn [SFabs SFcompare SFfinito].
  rewrite Z.compare_refl, Pos.compare_cont_refl.
  destruct s; reflexivity.
Qed.

(** Doubles that compare equal, one of them finite, subtract to a zero. *)
Lemma SFsub_iguales (x y : spec_float) :
  SFeqb x y = true -> SFfinito x = true -> SFcero (SFsub prec emax y x) = true.
Proof.
  unfold SFeqb.
  destruct x as [sx | sx | | sx mx ex]; cbn [SFfinito]; try discriminate;
  destruct y as [sy | sy | | sy my ey]; cbn [SFcompare];
    try discriminate; try (destruct sx; discriminate);
    try (destruct sy; discriminate).
  - intros _ _. destruct sx, sy; reflexivity.
  - intros Heq _.
    assert (sx = sy /\ ex = ey /\ mx = my) as (-> & -> & ->).
    { destruct sx, sy; try discriminate;
        destruct (Z.compare_spec ex ey) as [He | He | He]; try discriminate;
        destruct (Pos.compare_cont Eq mx my) eqn:Hm; try discriminate;
        apply Pos.compare_eq in Hm; auto. }
    cbn [SFsub]. rewrite Z.sub_diag. reflexivity.
Qed.

Lemma SFdiv_cero (z y : spec_float) :
  SFcero z = true -> positivo y -> SFcero (SFdiv prec emax z y) = true.
Proof.
  destruct z; try discriminate.
  destruct y as [| | |[] m e]; cbn [positivo]; try contradiction. reflexivity.
Qed.

Lemma SFmul_cero (x z : spec_float) :
  SFfinito x = true -> SFcero z = true -> SFcero (SFmul prec emax x z) = true.
Proof.
  destruct z; try discriminate. destruct x; try discriminate; reflexivity.
Qed.

Lemma SFadd_cero (x z : spec_float) :
  SFfinito x = true -> SFcero z = true -> SFfinito (SFadd prec emax x z) = true.
Proof.
  destruct z as [sz| | |]; try discriminate.
  destruct x as [sx| | |]; try discriminate; [|reflexivity].
  intros _ _. destruct sx, sz; reflexivity.
Qed.

Lemma SFadd_cero_cero (z : spec_float) :
  SFcero z = true -> SFadd prec emax (S754_zero false) z = S754_zero false.
Proof.
  destruct z as [[]| | |]; try discriminate; reflexivity.
Qed.

Lemma acotado_finito (B : Z) (x : spec_float) : acotado B x -> SFfinito x = true.
Proof.
  destruct x as [[]|[]| |[] m e]; cbn; try contradiction; reflexivity.
Qed.

(** The conversion of a non-negative [long]. *)
Lemma Prim2SF_double_of_long (z : Z) :
  0 <= z <= max_long ->
  Prim2SF (double_of_long z) = binary_normalize prec emax z 0 false.
Proof.
  unfold max_long, double_of_long, min_long. intros Hz.
  destruct (Z.eqb_spec z (-9223372036854775808)); [lia|].
  destruct (Z.ltb_spec z 0); [lia|].
  rewrite FloatAxioms.of_uint63_spec, Uint63.of_Z_spec.
  rewrite Z.mod_small; [reflexivity|].
  change wB with 9223372036854775808. lia.
Qed.

Lemma double_of_long_acotado (z : Z) :
  0 <= z <= max_long ->
  acotado 64 (Prim2SF (double_of_long z)) /\
  (0 < z -> positivo (Prim2SF (double_of_long z))).
Proof.
  intros Hz. rewrite Prim2SF_double_of_long by assumption.
  assert (Hd : Zdigits2 z <= 63).
  { apply Zdigits2_le; [lia|]. unfold max_long in Hz.
    change (2 ^ 63) with 9223372036854775808. lia. }
  pose proof (Zdigits2_no_negativo z).
  destruct (binary_normalize_acotado z 0 63) as [Ha Hp]; try lia.
  split; [exact Ha|]. intros Hpos. apply Hp; lia.
Qed.

(** [i + 0.5] is a finite double for every non-negative [long] [i]. *)
Lemma indice_mas_medio_finito (i : Z) :
  0 <= i <= max_long ->
  is_finite (double_of_long i + 0.5)%float = true.
Proof.
  intros Hi. rewrite is_finite_spec, FloatAxioms.add_spec.
  apply (acotado_finito 66).
  apply (SFadd_acotado 64); try lia.
  - apply double_of_long_acotado, Hi.
  - change (Prim2SF 0.5) with (S754_finite false 4503599627370496 (-53)).
    cbn. lia.
Qed.

Lemma mul_nan (y : float) : (y * nan)%float = nan.
Proof.
  apply Prim2SF_inj. rewrite FloatAxioms.mul_spec.
  change (Prim2SF nan) with S754_nan.
  destruct (Prim2SF y); reflexivity.
Qed.

Lemma nan_no_es_cero : nan <> 0%float.
Proof.
  intros Heq. apply (f_equal Prim2SF) in Heq.
  change (S754_nan = S754_zero false) in Heq. discriminate.
Qed.

(** ** An interval of zero width *)

Section AnchoCero.
Variable funcion : float -> float.
Hypothesis funcion_finita :
  forall x, is_finite x = true -> is_finite (funcion x) = true.

Lemma termino_cero (a delta_x : float) (i : Z) :
  is_finite a = true -> SFcero (Prim2SF delta_x) = true ->
  0 <= i <= max_long ->
  SFcero (Prim2SF (funcion (a + (double_of_long i + 0.5) * delta_x) * delta_x)%float)
    = true.
Proof.
  intros Ha Hdx Hi.
  rewrite FloatAxioms.mul_spec. apply SFmul_cero; [|exact Hdx].
  rewrite <- is_finite_spec. apply funcion_finita.
  rewrite is_finite_spec, FloatAxioms.add_spec.
  apply SFadd_cero; [rewrite <- is_finite_spec; exact Ha|].
  rewrite FloatAxioms.mul_spec. apply SFmul_cero; [|exact Hdx].
  rewrite <- is_finite_spec. apply indice_mas_medio_finito, Hi.
Qed.

Lemma acumulador_cero (t : float) :
  SFcero (Prim2SF t) = true -> (0 + t)%float = 0%float.
Proof.
  intros Ht. apply Prim2SF_inj. rewrite FloatAxioms.add_spec.
  change (Prim2SF 0) with (S754_zero false).
  apply SFadd_cero_cero, Ht.
Qed.

Lemma mpi_bucle_cero (params : Mpi.IntegracionParams float) (delta_x : float)
    (k : nat) (i : Z) :
  is_finite (Mpi.a params) = true -> SFcero (Prim2SF delta_x) = true ->
  0 <= i -> i + Z.of_nat k <= max_long ->
  Mpi.bucle funcion params delta_x k i 0%float = 0%float.
Proof.
  intros Ha Hdx. revert i. induction k as [|k IH]; intros i Hi Hmax.
  - reflexivity.
  - cbn [Mpi.bucle suma_f mult_f de_long medio binary64].
    rewrite acumulador_cero by (apply termino_cero; (assumption || lia)).
    rewrite long_add_exact by (unfold in_long, min_long, max_long in *; lia).
    apply IH; lia.
Qed.

Lemma delta_x_cero (a b : float) (n : Z) :
  is_finite a = true -> (a =? b)%float = true -> 0 < n <= max_long ->
  SFcero (Prim2SF ((b - a) / double_of_long n)%float) = true.
Proof.
  intros Ha Hab Hn.
  rewrite FloatAxioms.div_spec, FloatAxioms.sub_spec.
  apply SFdiv_cero.
  - apply SFsub_iguales.
    + rewrite <- FloatAxioms.eqb_spec. exact Hab.
    + rewrite <- is_finite_spec. exact Ha.
  - apply double_of_long_acotado; lia.
Qed.

Lemma mpi_calcular_cero (a b : float) (n inicio fin : Z) :
  is_finite a = true -> (a =? b)%float = true -> 0 < n <= max_long ->
  0 <= inicio <= max_long -> fin <= max_long ->
  Mpi.calcular_suma_riemann funcion
    {| Mpi.a := a; Mpi.b := b; Mpi.n := n |} inicio fin = 0%float.
Proof.
  intros Ha Hab Hn Hi Hf. unfold Mpi.calcular_suma_riemann.
  cbn [Mpi.a Mpi.b Mpi.n resta_f div_f de_long cero binary64].
  apply mpi_bucle_cero; try assumption; try lia.
  apply delta_x_cero; assumption.
Qed.

Lemma reduce_ceros {A : Type} (l : list A) :
  Mpi.MPI_Reduce_SUM (map (fun _ => 0%float) l) = 0%float.
Proof.
  destruct l as [|x l]; [reflexivity|]. cbn [map Mpi.MPI_Reduce_SUM].
  induction l as [|y l IH]; [reflexivity|]. cbn [map fold_left]. exact IH.
Qed.

Lemma mpi_suma_total_cero (a b : float) (n size : Z) :
  is_finite a = true -> (a =? b)%float = true -> 0 < n <= max_long ->
  1 <= size <= max_int ->
  Mpi.suma_total funcion {| Mpi.a := a; Mpi.b := b; Mpi.n := n |} size = 0%float.
Proof.
  intros Ha Hab Hn Hs. unfold Mpi.suma_total.
  rewrite (map_ext_in _ (fun _ => 0%float)); [apply reduce_ceros|].
  intros rank Hin. apply rangos_en_rango in Hin.
  unfold Mpi.suma_local.
  pose proof (porcion_dentro {| Mpi.a := a; Mpi.b := b; Mpi.n := n |} size
                Hn Hs rank Hin) as Hdentro.
  destruct (Mpi.porcion {| Mpi.a := a; Mpi.b := b; Mpi.n := n |} size rank)
    as [inicio fin].
  cbn [fst snd Mpi.n] in Hdentro.
  apply mpi_calcular_cero; (assumption || lia).
Qed.

End AnchoCero.

(** C7, as stated, fails: [a == b] holds of two infinities, and then
    [delta_x = (b - a) / n] is NaN and so is every total, whatever the
    integrand. *)
Lemma ancho_cero_infinito_da_nan :
  (infinity =? infinity)%float = true /\ 0 < 1 /\
  (forall funcion : float -> float,
     Secuencial.calcular_suma_riemann funcion infinity infinity 1 = nan /\
     Mpi.suma_total funcion
       {| Mpi.a := infinity; Mpi.b := infinity; Mpi.n := 1 |} 1 = nan) /\
  nan <> 0%float.
Proof.
  split; [reflexivity|]. split; [lia|]. split; [|exact nan_no_es_cero].
  intros funcion.
  assert (Hsec : Secuencial.calcular_suma_riemann funcion infinity infinity 1
                 = nan).
  { unfold Secuencial.calcular_suma_riemann.
    cbn [resta_f div_f de_long cero binary64].
    change ((infinity - infinity) / double_of_long 1)%float with nan.
    change (Z.to_nat (1 - 0)) with 1%nat.
    cbn [Secuencial.bucle suma_f mult_f de_long medio binary64].
    rewrite mul_nan. reflexivity. }
  split; [exact Hsec|].
  rewrite <- Hsec.
  apply (suma_total_un_proceso funcion
           {| Mpi.a := infinity; Mpi.b := infinity; Mpi.n := 1 |} 1);
    unfold max_long, max_int; cbn; lia.
Qed.

(** C7, amended. For every [n > 0] and every finite [a], [b] with [a == b],
    and an integrand that is finite on finite arguments (as [sin] is), the
    total is exactly [0.0]: the sequential sum, the range sum over [[0, n)],
    and the reduced parallel total for any number of workers. *)
Theorem ancho_cero_finito_da_cero (funcion : float -> float)
    (a b : float) (n size : Z) :
  (forall x, is_finite x = true -> is_finite (funcion x) = true) ->
  0 < n <= max_long ->
  1 <= size <= max_int ->
  is_finite a = true ->
  (a =? b)%float = true ->
  Secuencial.calcular_suma_riemann funcion a b n = 0%float /\
  Mpi.calcular_suma_riemann funcion
    {| Mpi.a := a; Mpi.b := b; Mpi.n := n |} 0 n = 0%float /\
  Mpi.suma_total funcion {| Mpi.a := a; Mpi.b := b; Mpi.n := n |} size = 0%float.
Proof.
  intros Hf Hn Hs Ha Hab.
  assert (Hmpi : Mpi.calcular_suma_riemann funcion
                   {| Mpi.a := a; Mpi.b := b; Mpi.n := n |} 0 n = 0%float)
    by (apply mpi_calcular_cero; (assumption || lia)).
  split; [|split].
  - rewrite (@secuencial_es_mpi float binary64 funcion a b n). exact Hmpi.
  - exact Hmpi.
  - apply mpi_suma_total_cero; assumption.
Qed.

Lemma ancho_cero_finito_da_cero_testigo :
  Secuencial.calcular_suma_riemann (fun x => x) 1.5%float 1.5%float 4
    = 0%float /\
  Mpi.calcular_suma_riemann (fun x => x)
    {| Mpi.a := 1.5%float; Mpi.b := 1.5%float; Mpi.n := 4 |} 0 4 = 0%float /\
  Mpi.suma_total (fun x => x)
    {| Mpi.a := 1.5%float; Mpi.b := 1.5%float; Mpi.n := 4 |} 3 = 0%float.
Proof.
  apply (ancho_cero_finito_da_cero (fun x => x) 1.5%float 1.5%float 4 3).
  - intros x Hx. exact Hx.
  - unfold max_long; lia.
  - unfold max_int; lia.
  - reflexivity.
  - reflexivity.
Defined.

(** * Further properties *)

(** ** The partition, continued *)

(** X1. The ranges tile [[0, n)] in rank order: the range of rank 0 starts at
    0, the range of every rank ends where that of the next rank starts, and
    the range of the last rank ends at [n]. *)
Theorem rangos_contiguos {F : Type} (params : Mpi.IntegracionParams F) (size : Z) :
  0 < Mpi.n params <= max_long ->
  1 <= size <= max_int ->
  fst (Mpi.porcion params size 0) = 0 /\
  (forall rank, 0 <= rank < size - 1 ->
     snd (Mpi.porcion params size rank) =
     fst (Mpi.porcion params size (rank + 1))) /\
  snd (Mpi.porcion params size (size - 1)) = Mpi.n params.
Proof.
  intros Hn Hs. split; [|split].
  - rewrite porcion_eq by (assumption || lia). reflexivity.
  - intros rank Hr. rewrite !porcion_eq by (assumption || lia). cbn [fst snd].
    destruct (Z.eqb_spec rank (size - 1)); lia.
  - rewrite porcion_eq by (assumption || lia). cbn [snd].
    rewrite Z.eqb_refl. reflexivity.
Qed.

Lemma rangos_contiguos_testigo :
  let params := {| Mpi.a := 0%float; Mpi.b := 1%float; Mpi.n := 10 |} in
  fst (Mpi.porcion params 4 0) = 0 /\
  (forall rank, 0 <= rank < 4 - 1 ->
     snd (Mpi.porcion params 4 rank) = fst (Mpi.porcion params 4 (rank + 1))) /\
  snd (Mpi.porcion params 4 (4 - 1)) = 10.
Proof.
  apply (rangos_contiguos {| Mpi.a := 0%float; Mpi.b := 1%float; Mpi.n := 10 |} 4);
    simpl; unfold max_long, max_int; lia.
Defined.

(** X2. The load imbalance is bounded by the number of workers: the sizes of
    two ranges differ by less than [size], and when [size] divides [n] every
    range has exactly [n / size] indices. *)
Theorem desequilibrio_acotado {F : Type} (params : Mpi.IntegracionParams F)
    (size r1 r2 : Z) :
  0 < Mpi.n params <= max_long ->
  1 <= size <= max_int ->
  0 <= r1 < size -> 0 <= r2 < size ->
  let tam := fun rank => snd (Mpi.porcion params size rank)
                         - fst (Mpi.porcion params size rank) in
  Z.abs (tam r1 - tam r2) < size /\
  (Z.rem (Mpi.n params) size = 0 -> tam r1 = Z.quot (Mpi.n params) size).
Proof.
  intros Hn Hs Hr1 Hr2 tam. subst tam. cbn beta.
  rewrite Z.quot_div_nonneg, Z.rem_mod_nonneg by lia.
  rewrite !porcion_eq by (assumption || lia). cbn [fst snd].
  pose proof (Z.div_mod (Mpi.n params) size ltac:(lia)) as Hdm.
  pose proof (Z.mod_pos_bound (Mpi.n params) size ltac:(lia)) as Hmod.
  destruct (Z.eqb_spec r1 (size - 1)), (Z.eqb_spec r2 (size - 1)); split; nia.
Qed.

Lemma desequilibrio_acotado_testigo :
  let params := {| Mpi.a := 0%float; Mpi.b := 1%float; Mpi.n := 12 |} in
  let tam := fun rank => snd (Mpi.porcion params 4 rank)
                         - fst (Mpi.porcion params 4 rank) in
  Z.abs (tam 3 - tam 0) < 4 /\
  (Z.rem 12 4 = 0 -> tam 3 = Z.quot 12 4).
Proof.
  apply (desequilibrio_acotado
           {| Mpi.a := 0%float; Mpi.b := 1%float; Mpi.n := 12 |} 4 3 0);
    simpl; unfold max_long, max_int; lia.
Defined.

(** X3. No worker is idle exactly when there are at most as many workers as
    subintervals: every range is non-empty if and only if [size <= n]. *)
Theorem sin_trabajadores_ociosos {F : Type} (params : Mpi.IntegracionParams F)
    (size : Z) :
  0 < Mpi.n params <= max_long ->
  1 <= size <= max_int ->
  (forall rank, 0 <= rank < size ->
     fst (Mpi.porcion params size rank) < snd (Mpi.porcion params size rank))
  <-> size <= Mpi.n params.
Proof.
  intros Hn Hs.
  pose proof (base_acotada params size Hn Hs) as [Hb0 Hb].
  split.
  - intros Hall.
    destruct (Z_le_gt_dec size (Mpi.n params)) as [Hle | Hgt]; [exact Hle|].
    exfalso. specialize (Hall 0 ltac:(lia)).
    rewrite porcion_eq in Hall by (assumption || lia). cbn [fst snd] in Hall.
    rewrite (Z.div_small (Mpi.n params) size) in Hall by lia.
    destruct (Z.eqb_spec 0 (size - 1)); lia.
  - intros Hle rank Hr.
    assert (Hbase : 1 <= Mpi.n params / size)
      by (apply Z.div_le_lower_bound; lia).
    rewrite porcion_eq by (assumption || lia). cbn [fst snd].
    destruct (Z.eqb_spec rank (size - 1)); nia.
Qed.

Lemma sin_trabajadores_ociosos_testigo :
  let params := {| Mpi.a := 0%float; Mpi.b := 1%float; Mpi.n := 10 |} in
  (forall rank, 0 <= rank < 4 ->
     fst (Mpi.porcion params 4 rank) < snd (Mpi.porcion params 4 rank))
  <-> 4 <= 10.
Proof.
  apply (sin_trabajadores_ociosos
           {| Mpi.a := 0%float; Mpi.b := 1%float; Mpi.n := 10 |} 4);
    simpl; unfold max_long, max_int; lia.
Defined.

(** ** The range sum on doubles, continued *)

Lemma indices_uno (i : Z) : Especificacion.indices i (i + 1) = [i].
Proof.
  rewrite indices_cons by lia. rewrite indices_vacio. reflexivity.
Qed.

(** X4. Extending a range by one index at its end adds exactly the term of
    that index to the previous result, as doubles: the sum over
    [[inicio, fin + 1)] is the sum over [[inicio, fin)] plus
    [f(a + (fin + 0.5) * delta_x) * delta_x]. *)
Theorem extender_rango_por_el_final (funcion : float -> float)
    (a b : float) (n inicio fin : Z) :
  0 <= inicio -> inicio <= fin -> fin < max_long ->
  let params := {| Mpi.a := a; Mpi.b := b; Mpi.n := n |} in
  let delta_x := ((b - a) / double_of_long n)%float in
  Mpi.calcular_suma_riemann funcion params inicio (fin + 1) =
  (Mpi.calcular_suma_riemann funcion params inicio fin +
   funcion (a + (double_of_long fin + 0.5) * delta_x) * delta_x)%float.
Proof.
  intros H0 H1 H2 params delta_x. subst params delta_x.
  rewrite !(@mpi_es_RangeSum float binary64) by lia.
  unfold Especificacion.RangeSum. cbn [Mpi.a Mpi.b Mpi.n].
  rewrite (terminos_app funcion a b n inicio fin (fin + 1)) by lia.
  unfold Especificacion.sumar. rewrite fold_left_app.
  unfold Especificacion.terminos at 1. rewrite indices_uno. reflexivity.
Qed.

Lemma extender_rango_por_el_final_testigo :
  let funcion := fun x : float => (x * x)%float in
  let params := {| Mpi.a := 0%float; Mpi.b := 1%float; Mpi.n := 4 |} in
  let delta_x := ((1 - 0) / double_of_long 4)%float in
  Mpi.calcular_suma_riemann funcion params 1 (2 + 1) =
  (Mpi.calcular_suma_riemann funcion params 1 2 +
   funcion (0 + (double_of_long 2 + 0.5) * delta_x) * delta_x)%float.
Proof.
  apply (extender_rango_por_el_final (fun x : float => (x * x)%float)
           0%float 1%float 4 1 2); unfold max_long; lia.
Defined.

(** *** NaN bounds *)

Lemma is_nan_es_nan (x : float) : is_nan x = true -> x = nan.
Proof.
  unfold is_nan. rewrite FloatAxioms.eqb_spec. intros Hx.
  apply Prim2SF_inj. change (Prim2SF nan) with S754_nan.
  destruct (Prim2SF x) as [s | s | | s m e]; try reflexivity; exfalso;
    revert Hx; unfold SFeqb; cbn [SFcompare];
    rewrite ?Z.compare_refl, ?Pos.compare_cont_refl;
    destruct s; discriminate.
Qed.

Lemma sub_nan_r (x : float) : (x - nan)%float = nan.
Proof.
  apply Prim2SF_inj. rewrite FloatAxioms.sub_spec.
  change (Prim2SF nan) with S754_nan. destruct (Prim2SF x); reflexivity.
Qed.

Lemma sub_nan_l (x : float) : (nan - x)%float = nan.
Proof.
  apply Prim2SF_inj. rewrite FloatAxioms.sub_spec.
  change (Prim2SF nan) with S754_nan. reflexivity.
Qed.

Lemma div_nan_l (x : float) : (nan / x)%float = nan.
Proof.
  apply Prim2SF_inj. rewrite FloatAxioms.div_spec.
  change (Prim2SF nan) with S754_nan. reflexivity.
Qed.

Lemma add_nan_r (x : float) : (x + nan)%float = nan.
Proof.
  apply Prim2SF_inj. rewrite FloatAxioms.add_spec.
  change (Prim2SF nan) with S754_nan. destruct (Prim2SF x); reflexivity.
Qed.

Lemma add_nan_l (x : float) : (nan + x)%float = nan.
Proof.
  apply Prim2SF_inj. rewrite FloatAxioms.add_spec.
  change (Prim2SF nan) with S754_nan. reflexivity.
Qed.

Lemma delta_x_nan (a b : float) (n : Z) :
  is_nan a = true \/ is_nan b = true ->
  ((b - a) / double_of_long n)%float = nan.
Proof.
  intros [Ha | Hb].
  - rewrite (is_nan_es_nan a Ha), sub_nan_r, div_nan_l. reflexivity.
  - rewrite (is_nan_es_nan b Hb), sub_nan_l, div_nan_l. reflexivity.
Qed.

(** Once the accumulator is NaN it stays NaN, and with a NaN [delta_x] it is
    NaN after the first iteration. *)
Lemma mpi_bucle_desde_nan (funcion : float -> float)
    (params : Mpi.IntegracionParams float) (k : nat) (i : Z) :
  Mpi.bucle funcion params nan k i nan = nan.
Proof.
  revert i. induction k as [|k IH]; intros i; [reflexivity|].
  cbn [Mpi.bucle suma_f mult_f binary64]. rewrite add_nan_l. apply IH.
Qed.

Lemma mpi_bucle_delta_nan (funcion : float -> float)
    (params : Mpi.IntegracionParams float) (k : nat) (i : Z) (suma : float) :
  Mpi.bucle funcion params nan (S k) i suma = nan.
Proof.
  cbn [Mpi.bucle suma_f mult_f binary64].
  rewrite mul_nan, add_nan_r. apply mpi_bucle_desde_nan.
Qed.

Lemma mpi_calcular_nan (funcion : float -> float) (a b : float)
    (n inicio fin : Z) :
  is_nan a = true \/ is_nan b = true -> inicio < fin ->
  Mpi.calcular_suma_riemann funcion
    {| Mpi.a := a; Mpi.b := b; Mpi.n := n |} inicio fin = nan.
Proof.
  intros Hnan Hlt. unfold Mpi.calcular_suma_riemann.
  cbn [Mpi.a Mpi.b Mpi.n resta_f div_f de_long cero binary64].
  rewrite delta_x_nan by assumption.
  replace (Z.to_nat (fin - inicio)) with (S (Z.to_nat (fin - inicio - 1))) by lia.
  apply mpi_bucle_delta_nan.
Qed.

Lemma MPI_Reduce_SUM_ultimo (l : list float) (x : float) :
  Mpi.MPI_Reduce_SUM (l ++ [x]) =
  match l with
  | [] => x
  | _ => (Mpi.MPI_Reduce_SUM l + x)%float
  end.
Proof.
  destruct l as [|y l]; [reflexivity|].
  cbn [app Mpi.MPI_Reduce_SUM]. rewrite fold_left_app. reflexivity.
Qed.

(** The ranks as all but the last, then the last. *)
Lemma rangos_ultimo (size : Z) :
  1 <= size -> Mpi.rangos size = Mpi.rangos (size - 1) ++ [size - 1].
Proof.
  intros Hs.
  replace size with (Z.of_nat (S (Z.to_nat (size - 1)))) at 1 by lia.
  rewrite rangos_succ. rewrite Z2Nat.id by lia. reflexivity.
Qed.

(** X5. A NaN bound is never turned into a number: if [a] or [b] is NaN then
    every sum over a non-empty range is NaN, whatever the integrand, and so
    are the sequential total and the reduced total of any number of
    workers. *)
Theorem nan_se_propaga (funcion : float -> float) (a b : float) (n size : Z) :
  is_nan a = true \/ is_nan b = true ->
  0 < n <= max_long ->
  1 <= size <= max_int ->
  let params := {| Mpi.a := a; Mpi.b := b; Mpi.n := n |} in
  (forall inicio fin, inicio < fin ->
     Mpi.calcular_suma_riemann funcion params inicio fin = nan) /\
  Secuencial.calcular_suma_riemann funcion a b n = nan /\
  Mpi.suma_total funcion params size = nan.
Proof.
  intros Hnan Hn Hs params. subst params. split; [|split].
  - intros inicio fin Hlt. apply mpi_calcular_nan; assumption.
  - rewrite (@secuencial_es_mpi float binary64).
    apply mpi_calcular_nan; (assumption || lia).
  - unfold Mpi.suma_total.
    rewrite rangos_ultimo, map_app by lia. cbn [map].
    assert (Hult : Mpi.suma_local funcion
                     {| Mpi.a := a; Mpi.b := b; Mpi.n := n |} size (size - 1)
                   = nan).
    { unfold Mpi.suma_local.
      pose proof (base_acotada {| Mpi.a := a; Mpi.b := b; Mpi.n := n |} size
                    Hn Hs) as [Hb0 Hb].
      rewrite porcion_eq by (assumption || lia).
      rewrite Z.eqb_refl. cbn [Mpi.n] in *.
      apply mpi_calcular_nan; [assumption | nia]. }
    rewrite Hult, MPI_Reduce_SUM_ultimo.
    destruct (map _ _); [reflexivity | apply add_nan_r].
Qed.

Lemma nan_se_propaga_testigo :
  let funcion := fun x : float => (x * x)%float in
  let params := {| Mpi.a := nan; Mpi.b := 1%float; Mpi.n := 5 |} in
  (forall inicio fin, inicio < fin ->
     Mpi.calcular_suma_riemann funcion params inicio fin = nan) /\
  Secuencial.calcular_suma_riemann funcion nan 1%float 5 = nan /\
  Mpi.suma_total funcion params 2 = nan.
Proof.
  apply (nan_se_propaga (fun x : float => (x * x)%float) nan 1%float 5 2).
  - left. reflexivity.
  - unfold max_long; lia.
  - unfold max_int; lia.
Defined.

(** *** The sign of a zero total *)

Lemma binary_round_aux_no_cero (s : bool) (m e : Z) (l : location) :
  0 < m -> -1074 < Zdigits2 m + e ->
  SFcero (binary_round_aux prec emax s m e l) = false.
Proof.
  intros Hm Hemin. unfold binary_round_aux.
  pose proof (shr_fexp_cotas m e l ltac:(lia)) as (H1 & H2 & _ & H4).
  destruct (shr_fexp prec emax m e l) as [mrs' e']. cbn [fst snd] in *.
  specialize (H4 Hm Hemin).
  pose proof (round_nearest_even_cotas (shr_m mrs') (loc_of_shr_record mrs')) as Hr.
  set (m1 := round_nearest_even (shr_m mrs') (loc_of_shr_record mrs')) in *.
  pose proof (shr_fexp_cotas m1 e' loc_Exact ltac:(lia)) as (_ & _ & _ & G4).
  destruct (shr_fexp prec emax m1 e' loc_Exact) as [mrs'' e'']. cbn [fst snd] in *.
  rewrite fexp_64 in H2.
  pose proof (Zdigits2_positivo m1 ltac:(lia)) as Hd1.
  specialize (G4 ltac:(lia) ltac:(lia)).
  destruct (shr_m mrs'') as [|p|p]; try lia.
  destruct (e'' <=? emax - prec); reflexivity.
Qed.

Lemma binary_normalize_no_cero (m e : Z) (szero : bool) :
  m <> 0 -> -1074 <= e ->
  SFcero (binary_normalize prec emax m e szero) = false.
Proof.
  intros Hm He.
  assert (Hround : forall s p, SFcero (binary_round prec emax s p e) = false).
  { intros s p. unfold binary_round.
    pose proof (shl_align_cotas p e (fexp prec emax (Zpos (digits2_pos p) + e)))
      as [Hs Hez].
    destruct (shl_align p e (fexp prec emax (Zpos (digits2_pos p) + e)))
      as [mz ez]. cbn [fst snd] in *.
    apply binary_round_aux_no_cero; cbn [Zdigits2]; lia. }
  destruct m as [|p|p]; [contradiction | apply Hround | apply Hround].
Qed.

Lemma valid_binary_exponente (s : bool) (m : positive) (e : Z) :
  valid_binary (S754_finite s m e) = true -> -1074 <= e.
Proof.
  cbn [SpecFloat.valid_binary]. unfold bounded, canonical_mantissa.
  intros H. apply andb_prop in H as [H _]. apply Z.eqb_eq in H.
  rewrite fexp_64 in H. lia.
Qed.

(** A sum of doubles is [-0.0] only if the first operand is. *)
Lemma add_no_cero_negativo (x y : float) :
  Prim2SF x <> S754_zero true -> Prim2SF (x + y)%float <> S754_zero true.
Proof.
  intros Hx. rewrite FloatAxioms.add_spec.
  pose proof (Prim2SF_valid x) as Vx. pose proof (Prim2SF_valid y) as Vy.
  destruct (Prim2SF x) as [[]|sx| |sx mx ex];
    destruct (Prim2SF y) as [[]|sy| |sy my ey];
    try contradiction; try discriminate;
    try (destruct sx; discriminate); try (destruct sx, sy; discriminate).
  apply valid_binary_exponente in Vx, Vy.
  unfold SF64add. cbn [SFadd].
  set (M := cond_Zopp sx (Zpos (fst (shl_align mx ex (Z.min ex ey)))) +
            cond_Zopp sy (Zpos (fst (shl_align my ey (Z.min ex ey))))).
  destruct (Z.eq_dec M 0) as [-> | HM]; [discriminate|].
  pose proof (binary_normalize_no_cero M (Z.min ex ey) false HM ltac:(lia)) as Hz.
  intros Heq. rewrite Heq in Hz. discriminate.
Qed.

Lemma add_cero_l (s : float) :
  Prim2SF s <> S754_zero true -> (0 + s)%float = s.
Proof.
  intros Hs. apply Prim2SF_inj. rewrite FloatAxioms.add_spec.
  change (Prim2SF 0) with (S754_zero false).
  destruct (Prim2SF s) as [[]| | |]; try reflexivity. contradiction.
Qed.

Lemma mpi_bucle_no_cero_negativo (funcion : float -> float)
    (params : Mpi.IntegracionParams float) (delta_x : float)
    (k : nat) (i : Z) (suma : float) :
  Prim2SF suma <> S754_zero true ->
  Prim2SF (Mpi.bucle funcion params delta_x k i suma) <> S754_zero true.
Proof.
  revert i suma. induction k as [|k IH]; intros i suma Hs; [exact Hs|].
  cbn [Mpi.bucle suma_f binary64]. apply IH, add_no_cero_negativo, Hs.
Qed.

(** The accumulator starts at [+0.0], so no range sum is [-0.0]. *)
Lemma mpi_calcular_no_cero_negativo (funcion : float -> float)
    (params : Mpi.IntegracionParams float) (inicio fin : Z) :
  Prim2SF (Mpi.calcular_suma_riemann funcion params inicio fin)
    <> S754_zero true.
Proof.
  unfold Mpi.calcular_suma_riemann. apply mpi_bucle_no_cero_negativo.
  cbn [cero binary64]. change (Prim2SF 0) with (S754_zero false). discriminate.
Qed.

Lemma suma_local_ocioso (funcion : float -> float)
    (a b : float) (n size rank : Z) :
  0 < n <= max_long -> n < size <= max_int -> 0 <= rank < size - 1 ->
  Mpi.suma_local funcion {| Mpi.a := a; Mpi.b := b; Mpi.n := n |} size rank
  = 0%float.
Proof.
  intros Hn Hs Hr.
  assert (Hbase : n / size = 0) by (apply Z.div_small; lia).
  unfold Mpi.suma_local.
  rewrite porcion_eq by (cbn [Mpi.n]; lia). cbn [Mpi.n]. rewrite Hbase.
  destruct (Z.eqb_spec rank (size - 1)); [lia|].
  replace (rank * 0 + 0) with (rank * 0) by lia.
  apply (@mpi_rango_vacio float binary64).
Qed.

Lemma suma_total_de_sobra (funcion : float -> float)
    (a b : float) (n size : Z) :
  0 < n <= max_long -> n < size <= max_int ->
  Mpi.suma_total funcion {| Mpi.a := a; Mpi.b := b; Mpi.n := n |} size =
  Secuencial.calcular_suma_riemann funcion a b n.
Proof.
  intros Hn Hs.
  assert (Hbase : n / size = 0) by (apply Z.div_small; lia).
  unfold Mpi.suma_total. rewrite rangos_ultimo, map_app by lia. cbn [map].
  rewrite (map_ext_in _ (fun _ => 0%float))
    by (intros rank Hin; apply rangos_en_rango in Hin;
        apply suma_local_ocioso; lia).
  rewrite MPI_Reduce_SUM_ultimo, reduce_ceros.
  assert (Hult : Mpi.suma_local funcion
                   {| Mpi.a := a; Mpi.b := b; Mpi.n := n |} size (size - 1) =
                 Secuencial.calcular_suma_riemann funcion a b n).
  { unfold Mpi.suma_local.
    rewrite porcion_eq by (cbn [Mpi.n]; lia). cbn [Mpi.n].
    rewrite Hbase, Z.eqb_refl, Z.mul_0_r.
    symmetry. apply (@secuencial_es_mpi float binary64). }
  rewrite Hult.
  destruct (map _ _); [reflexivity|].
  apply add_cero_l. rewrite (@secuencial_es_mpi float binary64).
  apply mpi_calcular_no_cero_negativo.
Qed.

(** X6. More workers than subintervals cost nothing in accuracy: for
    [size > n] every rank but the last contributes exactly [0.0], and the
    reduced total is the sequential sum, the same double. *)
Theorem trabajadores_de_sobra (funcion : float -> float)
    (a b : float) (n size : Z) :
  0 < n <= max_long ->
  n < size <= max_int ->
  let params := {| Mpi.a := a; Mpi.b := b; Mpi.n := n |} in
  (forall rank, 0 <= rank < size - 1 ->
     Mpi.suma_local funcion params size rank = 0%float) /\
  Mpi.suma_total funcion params size =
  Secuencial.calcular_suma_riemann funcion a b n.
Proof.
  intros Hn Hs params. subst params. split.
  - intros rank Hr. apply suma_local_ocioso; assumption.
  - apply suma_total_de_sobra; assumption.
Qed.

Lemma trabajadores_de_sobra_testigo :
  let funcion := fun x : float => (x * x)%float in
  let params := {| Mpi.a := 0%float; Mpi.b := 1%float; Mpi.n := 3 |} in
  (forall rank, 0 <= rank < 8 - 1 ->
     Mpi.suma_local funcion params 8 rank = 0%float) /\
  Mpi.suma_total funcion params 8 =
  Secuencial.calcular_suma_riemann funcion 0%float 1%float 3.
Proof.
  apply (trabajadores_de_sobra (fun x : float => (x * x)%float)
           0%float 1%float 3 8); unfold max_long, max_int; lia.
Defined.

(** ** The OpenMP reduction *)

Section SumaOpenMP.
Context {F : Type} `{Aritmetica F}.
Variable funcion : F -> F.
Variable reparto : Z -> Z -> list (list Z).

Import Especificacion.

(** A thread's private sum is the plain sum of the terms of its
    iterations. *)
Lemma privada_es_sumar (a delta_x : F) (its : list Z) (s : F) :
  fold_left (OpenMP.iteracion funcion a delta_x) its s =
  fold_left suma_f (map (termino funcion a delta_x) its) s.
Proof.
  revert s. induction its as [|i its IH]; intros s; [reflexivity|].
  cbn [fold_left map]. rewrite IH. reflexivity.
Qed.

Lemma openmp_por_hilos (a b : F) (n num_hilos : Z) :
  OpenMP.calcular_suma_riemann_openmp funcion reparto a b n num_hilos =
  fold_left suma_f
    (map sumar
       (map (map (termino funcion a ((b - a) / de_long n)%arit))
            (reparto n num_hilos)))
    cero.
Proof.
  unfold OpenMP.calcular_suma_riemann_openmp. rewrite map_map.
  f_equal. apply map_ext. intros its. apply privada_es_sumar.
Qed.

Context `{!Exacta F}.
Hypothesis suma_conmutativa : forall x y : F, (x + y = y + x)%arit.

Lemma fold_suma_permutacion (l l' : list F) :
  Permutation l l' ->
  forall s, fold_left suma_f l s = fold_left suma_f l' s.
Proof.
  induction 1 as [| x l l' _ IH | x y l | l l' l'' _ IH1 _ IH2]; intros s.
  - reflexivity.
  - cbn [fold_left]. apply IH.
  - cbn [fold_left]. f_equal.
    rewrite <- !suma_asociativa. f_equal. apply suma_conmutativa.
  - rewrite IH1. apply IH2.
Qed.

Lemma openmp_exacta (a b : F) (n num_hilos : Z) :
  0 <= n <= max_long ->
  Permutation (List.concat (reparto n num_hilos)) (indices 0 n) ->
  OpenMP.calcular_suma_riemann_openmp funcion reparto a b n num_hilos =
  Secuencial.calcular_suma_riemann funcion a b n.
Proof.
  intros Hn Hperm.
  rewrite openmp_por_hilos, fold_sumar_concat, suma_cero_izq.
  rewrite <- concat_map.
  rewrite (secuencial_es_RangeSum funcion a b n Hn).
  unfold RangeSum, terminos, sumar.
  apply fold_suma_permutacion, Permutation_map, Hperm.
Qed.

End SumaOpenMP.

(** X7. In an exact arithmetic with commutative addition the OpenMP
    reduction does not depend on the schedule: whenever the iterations the
    runtime hands to the threads are, all together, a rearrangement of
    [0 .. n-1], [calcular_suma_riemann_openmp] returns the sequential sum. *)
Theorem openmp_no_depende_del_reparto {F : Type} `{Exacta F}
    (funcion : F -> F) (reparto : Z -> Z -> list (list Z))
    (a b : F) (n num_hilos : Z) :
  (forall x y : F, (x + y = y + x)%arit) ->
  0 < n <= max_long ->
  Permutation (List.concat (reparto n num_hilos)) (Especificacion.indices 0 n) ->
  OpenMP.calcular_suma_riemann_openmp funcion reparto a b n num_hilos =
  Secuencial.calcular_suma_riemann funcion a b n.
Proof.
  intros Hconm Hn Hperm. apply openmp_exacta; (assumption || lia).
Qed.

Lemma openmp_no_depende_del_reparto_testigo :
  OpenMP.calcular_suma_riemann_openmp sin (fun _ _ => [[2; 3]; [0; 1]])
    0%R PI 4 2 =
  Secuencial.calcular_suma_riemann sin 0%R PI 4.
Proof.
  refine (openmp_no_depende_del_reparto (F := R) sin
            (fun _ _ => [[2; 3]; [0; 1]]) 0%R PI 4 2 _ _ _).
  - intros x y. apply Rplus_comm.
  - unfold max_long; lia.
  - apply (Permutation_app_comm [2; 3] [0; 1]).
Defined.

(** X8. With a single thread that runs the iterations in order the OpenMP
    routine returns the same double as the sequential one: adding the
    thread's private sum to the original [0.0] changes nothing, the private
    sum never being [-0.0]. *)
Theorem openmp_un_hilo (funcion : float -> float)
    (reparto : Z -> Z -> list (list Z)) (a b : float) (n num_hilos : Z) :
  0 < n <= max_long ->
  reparto n num_hilos = [Especificacion.indices 0 n] ->
  OpenMP.calcular_suma_riemann_openmp funcion reparto a b n num_hilos =
  Secuencial.calcular_suma_riemann funcion a b n.
Proof.
  intros Hn Hrep.
  rewrite (@openmp_por_hilos float binary64), Hrep.
  cbn [map fold_left suma_f cero binary64].
  assert (Hsec : Especificacion.sumar
                   (map (Especificacion.termino funcion a
                           ((b - a) / de_long n)%arit)
                        (Especificacion.indices 0 n)) =
                 Secuencial.calcular_suma_riemann funcion a b n).
  { symmetry. apply (@secuencial_es_RangeSum float binary64). lia. }
  rewrite Hsec. apply add_cero_l.
  rewrite (@secuencial_es_mpi float binary64).
  apply mpi_calcular_no_cero_negativo.
Qed.

Lemma openmp_un_hilo_testigo :
  OpenMP.calcular_suma_riemann_openmp (fun x => (x * x)%float)
    (fun n _ => [Especificacion.indices 0 n]) 0%float 1%float 7 1 =
  Secuencial.calcular_suma_riemann (fun x => (x * x)%float) 0%float 1%float 7.
Proof.
  apply (openmp_un_hilo (fun x => (x * x)%float)
           (fun n _ => [Especificacion.indices 0 n]) 0%float 1%float 7 1).
  - unfold max_long; lia.
  - reflexivity.
Defined.

(** ** Accepted runs *)

Lemma secuencial_main_valido (funcion : float -> float) (env : Entorno float)
    (argv : list string) :
  List.length argv = 4%nat -> 0 < atol env (arg argv 3) ->
  ejecutar (Secuencial.main funcion env argv) =
  ([Stdout "Aproximando la integral de sin(x) desde %.6f hasta %.6f con %ld subintervalos.\n"
      [VDouble (atof env (arg argv 1)); VDouble (atof env (arg argv 2));
       VLong (atol env (arg argv 3))];
    Reloj;
    Calculo (Secuencial.calcular_suma_riemann funcion
               (atof env (arg argv 1)) (atof env (arg argv 2))
               (atol env (arg argv 3)));
    Reloj;
    Stdout "Resultado de la integral aproximada: %.12f\n"
      [VDouble (Secuencial.calcular_suma_riemann funcion
                  (atof env (arg argv 1)) (atof env (arg argv 2))
                  (atol env (arg argv 3)))];
    Stdout "Tiempo de ejecución: %.6f segundos.\n"
      [VDouble (double_of_long (wrap64 (clock env 1 - clock env 0)) /
                double_of_long CLOCKS_PER_SEC)%float]],
   EXIT_SUCCESS).
Proof.
  intros Hargc Hn. unfold Secuencial.main. rewrite Hargc.
  change (Z.of_nat 4 =? 4) with true.
  destruct (Z.leb_spec (atol env (arg argv 3)) 0) as [Hle | _]; [lia|].
  correr. reflexivity.
Qed.


Lemma mpi_main_valido (funcion : float -> float) (env : Entorno float)
    (size : Z) (argv : list string) :
  List.length argv = 4%nat -> 0 < atol env (arg argv 3) ->
  ejecutar (Mpi.main funcion env size argv) =
  ([Stdout "Aproximando la integral de sin(x) desde %.6f hasta %.6f con %ld subintervalos.\n"
      [VDouble (atof env (arg argv 1)); VDouble (atof env (arg argv 2));
       VLong (atol env (arg argv 3))];
    Reloj;
    Calculo (Mpi.suma_total funcion
               {| Mpi.a := atof env (arg argv 1);
                  Mpi.b := atof env (arg argv 2);
                  Mpi.n := atol env (arg argv 3) |} size);
    Reloj;
    Stdout "Resultado de la integral aproximada: %.12f\n"
      [VDouble (Mpi.suma_total funcion
                  {| Mpi.a := atof env (arg argv 1);
                     Mpi.b := atof env (arg argv 2);
                     Mpi.n := atol env (arg argv 3) |} size)];
    Stdout "Tiempo de ejecución: %.6f segundos.\n"
      [VDouble (wtime env 1 - wtime env 0)%float]],
   0).
Proof.
  intros Hargc Hn. unfold Mpi.main. rewrite Hargc.
  change (Z.of_nat 4 =? 4) with true. cbn [Mpi.n].
  destruct (Z.leb_spec (atol env (arg argv 3)) 0) as [Hle | _]; [lia|].
  correr. reflexivity.
Qed.

(** X9. The sequential program accepts exactly the runs with three arguments
    and [n > 0]: the exit status is [EXIT_SUCCESS] if and only if
    [argc = 4] and [n > 0], and then the run prints the announcement, reads
    the clock, computes, reads the clock again, and prints the sum and the
    time between the two readings, with nothing on standard error. *)
Theorem secuencial_acepta (funcion : float -> float) (env : Entorno float)
    (argv : list string) :
  let a := atof env (arg argv 1) in
  let b := atof env (arg argv 2) in
  let n := atol env (arg argv 3) in
  let suma_total := Secuencial.calcular_suma_riemann funcion a b n in
  let tiempo :=
    (double_of_long (wrap64 (clock env 1 - clock env 0)) /
     double_of_long CLOCKS_PER_SEC)%float in
  (snd (ejecutar (Secuencial.main funcion env argv)) = EXIT_SUCCESS <->
   List.length argv = 4%nat /\ 0 < n) /\
  (List.length argv = 4%nat -> 0 < n ->
   ejecutar (Secuencial.main funcion env argv) =
   ([Stdout "Aproximando la integral de sin(x) desde %.6f hasta %.6f con %ld subintervalos.\n"
       [VDouble a; VDouble b; VLong n];
     Reloj; Calculo suma_total; Reloj;
     Stdout "Resultado de la integral aproximada: %.12f\n" [VDouble suma_total];
     Stdout "Tiempo de ejecución: %.6f segundos.\n" [VDouble tiempo]],
    EXIT_SUCCESS)).
Proof.
  intros a b n suma_total tiempo.
  split; [split|exact (secuencial_main_valido funcion env argv)].
  - intros Hstatus.
    destruct (Nat.eq_dec (List.length argv) 4) as [Hargc | Hargc].
    + destruct (Z_lt_le_dec 0 n) as [Hn | Hn]; [auto|].
      destruct (secuencial_rechaza funcion env argv (or_intror Hn)) as [Hne _].
      contradiction.
    + destruct (secuencial_rechaza funcion env argv (or_introl Hargc)) as [Hne _].
      contradiction.
  - intros [Hargc Hn].
    rewrite (secuencial_main_valido funcion env argv Hargc Hn). reflexivity.
Qed.

Lemma secuencial_acepta_testigo :
  snd (ejecutar (Secuencial.main (fun x => x) entorno_de_prueba
                   ["./riemann_suma_secuencial"; "0"; "3.14"; "8"]))
  = EXIT_SUCCESS.
Proof.
  apply (secuencial_acepta (fun x => x) entorno_de_prueba
           ["./riemann_suma_secuencial"; "0"; "3.14"; "8"]).
  split; [reflexivity | vm_compute; reflexivity].
Defined.



(** X11. The MPI job is accepted exactly when rank 0 finds three arguments
    and [n > 0], whatever the number of processes; an accepted job prints, at
    the root, the announcement, then the reduced total of the [size] local
    sums and the time between the two readings of [MPI_Wtime] taken around
    the computation and the reduction. *)
Theorem mpi_acepta (funcion : float -> float) (env : Entorno float)
    (size : Z) (argv : list string) :
  let params := {| Mpi.a := atof env (arg argv 1);
                   Mpi.b := atof env (arg argv 2);
                   Mpi.n := atol env (arg argv 3) |} in
  let suma_total := Mpi.suma_total funcion params size in
  let tiempo := (wtime env 1 - wtime env 0)%float in
  (snd (ejecutar (Mpi.main funcion env size argv)) = 0 <->
   List.length argv = 4%nat /\ 0 < Mpi.n params) /\
  (List.length argv = 4%nat -> 0 < Mpi.n params ->
   ejecutar (Mpi.main funcion env size argv) =
   ([Stdout "Aproximando la integral de sin(x) desde %.6f hasta %.6f con %ld subintervalos.\n"
       [VDouble (Mpi.a params); VDouble (Mpi.b params); VLong (Mpi.n params)];
     Reloj; Calculo suma_total; Reloj;
     Stdout "Resultado de la integral aproximada: %.12f\n" [VDouble suma_total];
     Stdout "Tiempo de ejecución: %.6f segundos.\n" [VDouble tiempo]],
    0)).
Proof.
  intros params suma_total tiempo.
  split; [split|exact (mpi_main_valido funcion env size argv)].
  - intros Hstatus.
    destruct (Nat.eq_dec (List.length argv) 4) as [Hargc | Hargc].
    + destruct (Z_lt_le_dec 0 (Mpi.n params)) as [Hn | Hn]; [auto|].
      destruct (mpi_rechaza funcion env size argv (or_intror Hn)) as [Hne _].
      contradiction.
    + destruct (mpi_rechaza funcion env size argv (or_introl Hargc)) as [Hne _].
      contradiction.
  - intros [Hargc Hn].
    rewrite (mpi_main_valido funcion env size argv Hargc Hn). reflexivity.
Qed.

Lemma mpi_acepta_testigo :
  snd (ejecutar (Mpi.main (fun x => x) entorno_de_prueba 4
                   ["./mpi_riemann_suma"; "0"; "3.14"; "8"])) = 0.
Proof.
  apply (mpi_acepta (fun x => x) entorno_de_prueba 4
           ["./mpi_riemann_suma"; "0"; "3.14"; "8"]).
  split; [reflexivity | vm_compute; reflexivity].
Defined.

(** X12. On one process, or on more processes than subintervals, the MPI job
    prints what the sequential program computes: for the same valid
    arguments its announcement is the same and its "Resultado" line carries
    the double that the sequential [calcular_suma_riemann] returns. *)
Theorem mpi_imprime_la_suma_secuencial (funcion : float -> float)
    (env : Entorno float) (size : Z) (argv : list string) :
  List.length argv = 4%nat ->
  0 < atol env (arg argv 3) <= max_long ->
  size = 1 \/ atol env (arg argv 3) < size <= max_int ->
  let a := atof env (arg argv 1) in
  let b := atof env (arg argv 2) in
  let n := atol env (arg argv 3) in
  let secuencial := Secuencial.calcular_suma_riemann funcion a b n in
  ejecutar (Mpi.main funcion env size argv) =
  ([Stdout "Aproximando la integral de sin(x) desde %.6f hasta %.6f con %ld subintervalos.\n"
      [VDouble a; VDouble b; VLong n];
    Reloj; Calculo secuencial; Reloj;
    Stdout "Resultado de la integral aproximada: %.12f\n" [VDouble secuencial];
    Stdout "Tiempo de ejecución: %.6f segundos.\n"
      [VDouble (wtime env 1 - wtime env 0)%float]],
   0).
Proof.
  intros Hargc Hn Hsize a b n secuencial.
  rewrite (mpi_main_valido funcion env size argv Hargc ltac:(lia)).
  fold a b n.
  assert (Htotal : Mpi.suma_total funcion
                     {| Mpi.a := a; Mpi.b := b; Mpi.n := n |} size = secuencial).
  { destruct Hsize as [-> | Hsize].
    - apply (suma_total_un_proceso funcion
               {| Mpi.a := a; Mpi.b := b; Mpi.n := n |} 1);
        cbn [Mpi.n]; unfold max_int; (assumption || lia).
    - apply suma_total_de_sobra; assumption. }
  rewrite Htotal. reflexivity.
Qed.

Lemma mpi_imprime_la_suma_secuencial_testigo :
  ejecutar (Mpi.main (fun x => x) entorno_de_prueba 16
              ["./mpi_riemann_suma"; "0"; "3.14"; "8"]) =
  ([Stdout "Aproximando la integral de sin(x) desde %.6f hasta %.6f con %ld subintervalos.\n"
      [VDouble 0%float; VDouble 0%float; VLong 8];
    Reloj;
    Calculo (Secuencial.calcular_suma_riemann (fun x => x) 0%float 0%float 8);
    Reloj;
    Stdout "Resultado de la integral aproximada: %.12f\n"
      [VDouble (Secuencial.calcular_suma_riemann (fun x => x) 0%float 0%float 8)];
    Stdout "Tiempo de ejecución: %.6f segundos.\n"
      [VDouble (double_of_long 1 - double_of_long 0)%float]],
   0).
Proof.
  apply (mpi_imprime_la_suma_secuencial (fun x => x) entorno_de_prueba 16
           ["./mpi_riemann_suma"; "0"; "3.14"; "8"]).
  - reflexivity.
  - vm_compute. split; [reflexivity | discriminate].
  - right. vm_compute. split; [reflexivity | discriminate].
Defined.

(** ** The midpoint rule on the real numbers *)

Section Afin.
Local Open Scope R_scope.
Variables p q : R.

Local Abbreviation afin := (fun x : R => p * x + q).

Lemma suma_de_terminos_afines (a delta_x : R) (k : nat) (i : Z) (s : R) :
  fold_left Rplus
    (map (Especificacion.termino afin a delta_x)
         (Especificacion.indices i (i + Z.of_nat k)%Z)) s =
  s + IZR (Z.of_nat k) * (p * a + q) * delta_x
    + p * delta_x * delta_x *
      (IZR (Z.of_nat k) * IZR i + IZR (Z.of_nat k) * IZR (Z.of_nat k) / 2).
Proof.
  revert i s. induction k as [|k IH]; intros i s.
  - rewrite Z.add_0_r, indices_vacio. cbn. lra.
  - rewrite indices_cons by lia. cbn [map fold_left].
    replace (i + Z.of_nat (S k))%Z with (i + 1 + Z.of_nat k)%Z by lia.
    rewrite IH. rewrite Nat2Z.inj_succ, succ_IZR, plus_IZR.
    unfold Especificacion.termino.
    cbn [suma_f mult_f de_long medio reales]. lra.
Qed.

Lemma secuencial_afin (a b : R) (n : Z) :
  (0 < n <= max_long)%Z ->
  Secuencial.calcular_suma_riemann afin a b n =
  (b - a) * (p * (a + b) / 2 + q).
Proof.
  intros Hn.
  rewrite (@secuencial_es_RangeSum R reales) by lia.
  unfold Especificacion.RangeSum, Especificacion.terminos, Especificacion.sumar.
  replace n with (0 + Z.of_nat (Z.to_nat n))%Z at 2 by lia.
  cbn [suma_f resta_f div_f de_long cero reales].
  rewrite suma_de_terminos_afines.
  rewrite Z2Nat.id by lia.
  assert (Hnz : IZR n <> 0) by (apply not_0_IZR; lia).
  field. exact Hnz.
Qed.

End Afin.

(** X13. In real arithmetic the midpoint rule integrates an affine function
    exactly: for [f(x) = p * x + q] and every [n > 0] the sequential sum is
    [(b - a) * (p * (a + b) / 2 + q)], the integral of [f] over [[a, b]], and
    so is the reduced total of any number of workers. *)
Theorem punto_medio_exacto_en_afines (p q a b : R) (n size : Z) :
  0 < n <= max_long ->
  1 <= size <= max_int ->
  Secuencial.calcular_suma_riemann (fun x => (p * x + q)%R) a b n =
    ((b - a) * (p * (a + b) / 2 + q))%R /\
  Mpi.suma_total (fun x => (p * x + q)%R)
    {| Mpi.a := a; Mpi.b := b; Mpi.n := n |} size =
    ((b - a) * (p * (a + b) / 2 + q))%R.
Proof.
  intros Hn Hs. split.
  - apply secuencial_afin. exact Hn.
  - rewrite (@suma_total_exacta R reales (fun x => (p * x + q)%R) reales_exacta
               {| Mpi.a := a; Mpi.b := b; Mpi.n := n |} size Hn Hs).
    apply secuencial_afin. exact Hn.
Qed.

Lemma punto_medio_exacto_en_afines_testigo :
  Secuencial.calcular_suma_riemann (fun x => (2 * x + 1)%R) 0%R 3%R 5 =
    ((3 - 0) * (2 * (0 + 3) / 2 + 1))%R /\
  Mpi.suma_total (fun x => (2 * x + 1)%R)
    {| Mpi.a := 0%R; Mpi.b := 3%R; Mpi.n := 5 |} 2 =
    ((3 - 0) * (2 * (0 + 3) / 2 + 1))%R.
Proof.
  apply (punto_medio_exacto_en_afines 2 1 0 3 5 2);
    unfold max_long, max_int; lia.
Defined.

(** ** Reversed bounds *)

Lemma indices_snoc (i fin : Z) :
  i <= fin ->
  Especificacion.indices i (fin + 1) = Especificacion.indices i fin ++ [fin].
Proof.
  intros Hle. rewrite (indices_app i fin (fin + 1)) by lia.
  rewrite indices_uno. reflexivity.
Qed.

(** Counting down from [n - 1] visits the indices in reverse. *)
Lemma indices_reflejados (n : Z) (k : nat) :
  Z.of_nat k <= n ->
  map (fun i => n - 1 - i) (Especificacion.indices (n - Z.of_nat k) n) =
  rev (Especificacion.indices 0 (Z.of_nat k)).
Proof.
  induction k as [|k IH]; intros Hk.
  - rewrite Z.sub_0_r, indices_vacio. reflexivity.
  - rewrite indices_cons by lia. cbn [map].
    replace (n - Z.of_nat (S k) + 1) with (n - Z.of_nat k) by lia.
    rewrite IH by lia.
    replace (Z.of_nat (S k)) with (Z.of_nat k + 1) by lia.
    rewrite indices_snoc by lia. rewrite rev_app_distr. cbn [rev app].
    f_equal. lia.
Qed.

Section Orientacion.
Local Open Scope R_scope.
Variable f : R -> R.

Lemma fold_Rplus_opuestos (l : list R) (s : R) :
  fold_left Rplus (map Ropp l) (- s) = - fold_left Rplus l s.
Proof.
  revert s. induction l as [|x l IH]; intros s; [reflexivity|].
  cbn [map fold_left]. replace (- s + - x) with (- (s + x)) by lra. apply IH.
Qed.

Lemma termino_reflejado (a b : R) (n i : Z) :
  (0 < n)%Z ->
  Especificacion.termino f b ((a - b) / IZR n) i =
  - Especificacion.termino f a ((b - a) / IZR n) (n - 1 - i)%Z.
Proof.
  intros Hn. unfold Especificacion.termino.
  cbn [suma_f mult_f de_long medio reales].
  assert (Hnz : IZR n <> 0) by (apply not_0_IZR; lia).
  rewrite !minus_IZR.
  replace (a + (IZR n - 1 - IZR i + / 2) * ((b - a) / IZR n))
    with (b + (IZR i + / 2) * ((a - b) / IZR n)) by (field; exact Hnz).
  field. exact Hnz.
Qed.

Lemma secuencial_reflejada (a b : R) (n : Z) :
  (0 < n <= max_long)%Z ->
  Secuencial.calcular_suma_riemann f b a n =
  - Secuencial.calcular_suma_riemann f a b n.
Proof.
  intros Hn.
  rewrite !(@secuencial_es_RangeSum R reales) by lia.
  unfold Especificacion.RangeSum, Especificacion.terminos, Especificacion.sumar.
  cbn [resta_f div_f de_long cero reales].
  rewrite (map_ext_in _
             (fun i => - Especificacion.termino f a ((b - a) / IZR n)
                          (n - 1 - i)%Z))
    by (intros i _; apply termino_reflejado; lia).
  rewrite <- (map_map (fun i => (n - 1 - i)%Z)
                (fun j => - Especificacion.termino f a ((b - a) / IZR n) j)).
  pose proof (indices_reflejados n (Z.to_nat n) ltac:(lia)) as Hrev.
  rewrite Z2Nat.id, Z.sub_diag in Hrev by lia. rewrite Hrev.
  rewrite <- (map_map (Especificacion.termino f a ((b - a) / IZR n)) Ropp).
  replace 0 with (- 0) at 1 by lra.
  rewrite fold_Rplus_opuestos. f_equal.
  apply (@fold_suma_permutacion R reales reales_exacta Rplus_comm).
  apply Permutation_map. symmetry. apply Permutation_rev.
Qed.

End Orientacion.

(** X14. The programs do not ask for [a <= b]; in real arithmetic swapping
    the bounds negates the result, as it does for the integral: for every
    integrand and [n > 0] the sum from [b] to [a] is the opposite of the sum
    from [a] to [b]. *)
Theorem limites_invertidos (f : R -> R) (a b : R) (n : Z) :
  0 < n <= max_long ->
  Secuencial.calcular_suma_riemann f b a n =
  (- Secuencial.calcular_suma_riemann f a b n)%R.
Proof.
  apply secuencial_reflejada.
Qed.

Lemma limites_invertidos_testigo :
  Secuencial.calcular_suma_riemann sin PI 0%R 6 =
  (- Secuencial.calcular_suma_riemann sin 0%R PI 6)%R.
Proof.
  apply (limites_invertidos sin 0%R PI 6). unfold max_long; lia.
Defined.

(** *** A NaN value of the integrand *)

Lemma nan_mul (y : float) : (nan * y)%float = nan.
Proof.
  apply Prim2SF_inj. rewrite FloatAxioms.mul_spec.
  change (Prim2SF nan) with S754_nan. reflexivity.
Qed.

Lemma fold_suma_desde_nan (l : list float) :
  fold_left PrimFloat.add l nan = nan.
Proof.
  induction l as [|x l IH]; [reflexivity|].
  cbn [fold_left]. rewrite add_nan_l. exact IH.
Qed.

(** A sum that meets a NaN term is NaN. *)
Lemma sumar_con_nan (l : list float) (s : float) :
  In nan l -> fold_left PrimFloat.add l s = nan.
Proof.
  revert s. induction l as [|x l IH]; intros s; [contradiction|].
  intros [-> | Hin]; cbn [fold_left].
  - rewrite add_nan_r. apply fold_suma_desde_nan.
  - apply IH, Hin.
Qed.

Lemma MPI_Reduce_SUM_con_nan (l : list float) :
  In nan l -> Mpi.MPI_Reduce_SUM l = nan.
Proof.
  destruct l as [|x l]; [contradiction|].
  intros [-> | Hin]; cbn [Mpi.MPI_Reduce_SUM].
  - apply fold_suma_desde_nan.
  - apply sumar_con_nan, Hin.
Qed.

Lemma indices_completos (i fin j : Z) :
  i <= j < fin -> In j (Especificacion.indices i fin).
Proof.
  intros Hj. unfold Especificacion.indices. apply in_map_iff.
  exists (Z.to_nat (j - i)). split; [lia|]. apply in_seq. lia.
Qed.

Lemma mpi_calcular_integrando_nan (funcion : float -> float)
    (a b : float) (n inicio fin j : Z) :
  0 <= inicio -> fin <= max_long -> inicio <= j < fin ->
  funcion (a + (double_of_long j + 0.5) * ((b - a) / double_of_long n))%float
    = nan ->
  Mpi.calcular_suma_riemann funcion
    {| Mpi.a := a; Mpi.b := b; Mpi.n := n |} inicio fin = nan.
Proof.
  intros H0 Hmax Hj Hnan.
  rewrite (@mpi_es_RangeSum float binary64) by lia.
  unfold Especificacion.RangeSum, Especificacion.sumar, Especificacion.terminos.
  cbn [Mpi.a Mpi.b Mpi.n suma_f resta_f div_f de_long cero binary64].
  apply sumar_con_nan. apply in_map_iff. exists j. split.
  - unfold Especificacion.termino.
    cbn [suma_f mult_f de_long medio binary64]. rewrite Hnan. apply nan_mul.
  - apply indices_completos, Hj.
Qed.

(** X15. A NaN value of the integrand is never skipped: if [funcion] returns
    NaN at the midpoint of a subinterval, the sum over every range that holds
    that subinterval is NaN, and so are the sequential total and the reduced
    total of any number of workers. *)
Theorem nan_del_integrando_se_propaga (funcion : float -> float)
    (a b : float) (n size j : Z) :
  0 < n <= max_long ->
  1 <= size <= max_int ->
  0 <= j < n ->
  funcion (a + (double_of_long j + 0.5) * ((b - a) / double_of_long n))%float
    = nan ->
  let params := {| Mpi.a := a; Mpi.b := b; Mpi.n := n |} in
  (forall inicio fin, 0 <= inicio -> inicio <= j < fin -> fin <= n ->
     Mpi.calcular_suma_riemann funcion params inicio fin = nan) /\
  Secuencial.calcular_suma_riemann funcion a b n = nan /\
  Mpi.suma_total funcion params size = nan.
Proof.
  intros Hn Hs Hj Hnan params. subst params. split; [|split].
  - intros inicio fin H0 Hin Hfin.
    apply (mpi_calcular_integrando_nan funcion a b n inicio fin j);
      (assumption || lia).
  - rewrite (@secuencial_es_mpi float binary64).
    apply (mpi_calcular_integrando_nan funcion a b n 0 n j);
      (assumption || lia).
  - unfold Mpi.suma_total. apply MPI_Reduce_SUM_con_nan.
    pose proof (base_acotada {| Mpi.a := a; Mpi.b := b; Mpi.n := n |} size
                  Hn Hs) as [Hb0 Hb].
    cbn [Mpi.n] in Hb0, Hb.
    (* the rank whose range holds [j] *)
    set (base := n / size) in *.
    set (rank := if j <? (size - 1) * base then j / base else size - 1).
    assert (Hrank : 0 <= rank < size /\
              fst (Mpi.porcion {| Mpi.a := a; Mpi.b := b; Mpi.n := n |} size rank)
                <= j <
              snd (Mpi.porcion {| Mpi.a := a; Mpi.b := b; Mpi.n := n |} size rank)).
    { subst rank. destruct (Z.ltb_spec j ((size - 1) * base)) as [Hlt | Hge].
      - assert (Hbpos : 0 < base) by nia.
        pose proof (Z.div_pos j base ltac:(lia) Hbpos).
        pose proof (Z.div_lt_upper_bound j base (size - 1) Hbpos ltac:(nia)).
        pose proof (Z.mul_div_le j base Hbpos).
        pose proof (Z.mul_succ_div_gt j base Hbpos).
        split; [lia|].
        rewrite porcion_eq by (cbn [Mpi.n]; lia). cbn [Mpi.n fst snd].
        fold base. destruct (Z.eqb_spec (j / base) (size - 1)); nia.
      - split; [lia|].
        rewrite porcion_eq by (cbn [Mpi.n]; lia). cbn [Mpi.n fst snd].
        fold base. rewrite Z.eqb_refl. lia. }
    destruct Hrank as [Hr Hin].
    apply in_map_iff. exists rank. split.
    + unfold Mpi.suma_local.
      pose proof (porcion_dentro {| Mpi.a := a; Mpi.b := b; Mpi.n := n |} size
                    Hn Hs rank Hr) as Hdentro.
      destruct (Mpi.porcion {| Mpi.a := a; Mpi.b := b; Mpi.n := n |} size rank)
        as [inicio fin]. cbn [fst snd Mpi.n] in *.
      apply (mpi_calcular_integrando_nan funcion a b n inicio fin j);
        (assumption || lia).
    + unfold Mpi.rangos. apply in_map_iff.
      exists (Z.to_nat rank). split; [lia|]. apply in_seq. lia.
Qed.

Lemma nan_del_integrando_se_propaga_testigo :
  let funcion := fun x : float => PrimFloat.sqrt (x - 0.5)%float in
  let params := {| Mpi.a := 0%float; Mpi.b := 1%float; Mpi.n := 4 |} in
  (forall inicio fin, 0 <= inicio -> inicio <= 1 < fin -> fin <= 4 ->
     Mpi.calcular_suma_riemann funcion params inicio fin = nan) /\
  Secuencial.calcular_suma_riemann funcion 0%float 1%float 4 = nan /\
  Mpi.suma_total funcion params 2 = nan.
Proof.
  apply (nan_del_integrando_se_propaga
           (fun x : float => PrimFloat.sqrt (x - 0.5)%float)
           0%float 1%float 4 2 1).
  - unfold max_long; lia.
  - unfold max_int; lia.
  - lia.
  - reflexivity.
Defined.
